(** * Verification fixtures of mcp4eda: a shallow embedding

    The repository ships small C programs that are fed to a bounded model
    checker (cbmc-mcp, cbmc-tests) and to a C-to-RTL equivalence checker
    (c2rtl-verify-mcp).  This development embeds each of them as a Rocq
    function and states the properties of the specification over them.

    Conventions of the embedding:
    - [int] is 32 bits wide, [long long] 64 bits; a value of a C integer
      type is a [Z] inside the range of the type.  Signed arithmetic wraps
      (two's complement): the specification fixes this as the data model,
      where ISO C leaves signed overflow undefined.  A conversion to a
      signed type that cannot hold the value reduces it modulo [2^width],
      the behaviour gcc and clang document for it.
    - an array is a [list Z]; every subscript is bounds-checked and a
      subscript outside the object stops the program with [OutOfBounds].
    - [assert] stops the program with [AssertionViolated] and the source
      line of the assertion.
    - a [for] loop is run by [c_for], which evaluates the condition, the
      body and the step exactly as written; it takes fuel, and the theorems
      show that the fuel they ask for is enough. *)

From stdpp Require Import base numbers list sorting.

Local Open Scope Z_scope.

(** ** Machine integers *)

Module CInt.

Inductive ctype : Set := t_int | t_uint | t_llong.

Definition width (t : ctype) : Z :=
  match t with t_int | t_uint => 32 | t_llong => 64 end.

Definition is_signed (t : ctype) : bool :=
  match t with t_uint => false | t_int | t_llong => true end.

(** Reduction of an unbounded integer to the values of a type: modulo
    [2^width], read as two's complement for the signed types. *)
Definition norm (t : ctype) (z : Z) : Z :=
  if is_signed t
  then (z + 2 ^ (width t - 1)) mod 2 ^ width t - 2 ^ (width t - 1)
  else z mod 2 ^ width t.

Definition fits (t : ctype) (z : Z) : bool := norm t z =? z.

(** A typed value. *)
Definition cval : Set := ctype * Z.

(** C11 6.4.4.1 (5): an unsuffixed hexadecimal constant has the first of
    the types int, unsigned int, (long, unsigned long,) long long in which
    its value fits.  Every constant of the fixtures fits one of the first
    two. *)
Definition hex_const (z : Z) : cval :=
  if fits t_int z then (t_int, z)
  else if fits t_uint z then (t_uint, z)
  else (t_llong, z).

(** C11 6.3.1.8, usual arithmetic conversions, for the three types at
    hand: long long holds every unsigned int and so wins; between int and
    unsigned int the unsigned type wins. *)
Definition arith_conv (t1 t2 : ctype) : ctype :=
  match t1, t2 with
  | t_llong, _ | _, t_llong => t_llong
  | t_uint, _ | _, t_uint => t_uint
  | t_int, t_int => t_int
  end.

Definition cast (t : ctype) (v : cval) : cval := (t, norm t (snd v)).

(** Unary minus: the operand is promoted (none of the three types
    changes) and the result has the promoted type. *)
Definition c_neg (v : cval) : cval := (fst v, norm (fst v) (- snd v)).

Definition c_add (x y : cval) : cval :=
  let t := arith_conv (fst x) (fst y) in
  (t, norm t (snd (cast t x) + snd (cast t y))).

Definition c_lt (x y : cval) : bool :=
  let t := arith_conv (fst x) (fst y) in
  snd (cast t x) <? snd (cast t y).

Definition c_gt (x y : cval) : bool := c_lt y x.

(** The [int]-only operations used by most fixtures. *)
Definition INT_MAX : Z := 2147483647.
Definition INT_MIN : Z := -2147483648.

Definition in_int (z : Z) : Prop := INT_MIN <= z <= INT_MAX.

Definition wrap (z : Z) : Z := norm t_int z.

Definition add (a b : Z) : Z := wrap (a + b).
Definition sub (a b : Z) : Z := wrap (a - b).
Definition mul (a b : Z) : Z := wrap (a * b).
Definition neg (a : Z) : Z := wrap (- a).
(** [>>] on a signed operand: arithmetic shift. *)
Definition shr (a n : Z) : Z := Z.shiftr a n.

End CInt.

Import CInt.

Infix "+'" := CInt.add (at level 50, left associativity).
Infix "-'" := CInt.sub (at level 50, left associativity).
Infix "*'" := CInt.mul (at level 40, left associativity).

(** ** Outcomes of a run *)

Inductive error : Set :=
| OutOfBounds (index : Z)
| AssertionViolated (line : nat)
| OutOfFuel.

Inductive result (A : Type) : Type :=
| Ok (a : A)
| Err (e : error).

Arguments Ok {A} a.
Arguments Err {A} e.

Definition bind {A B : Type} (r : result A) (k : A -> result B) : result B :=
  match r with
  | Ok a => k a
  | Err e => Err e
  end.

Notation "x <- e1 ;; e2" := (bind e1 (fun x => e2))
  (at level 100, e1 at next level, right associativity).
Notation "e1 ;;; e2" := (bind e1 (fun _ => e2))
  (at level 100, right associativity).

Definition assert (line : nat) (cond : bool) : result unit :=
  if cond then Ok tt else Err (AssertionViolated line).

(** A statement of a function body either returns a value or falls
    through to the statements after it. *)
Definition if_return {A : Type} (cond : bool) (e : A) : option A :=
  if cond then Some e else None.

Definition or_else {A : Type} (s : option A) (rest : A) : A :=
  match s with
  | Some r => r
  | None => rest
  end.

(** [if (cond) return e;  rest] *)
Notation "'when' cond 'return_' e ';;' rest" := (or_else (if_return cond e) rest)
  (at level 100, cond at level 9, e at level 9, right associativity).

(** [a[i]] as an rvalue and [a[i] = v]. *)
Definition load (a : list Z) (i : Z) : result Z :=
  if (0 <=? i) && (i <? Z.of_nat (length a))
  then Ok (nth (Z.to_nat i) a 0)
  else Err (OutOfBounds i).

Definition store (a : list Z) (i : Z) (v : Z) : result (list Z) :=
  if (0 <=? i) && (i <? Z.of_nat (length a))
  then Ok (<[Z.to_nat i := v]> a)
  else Err (OutOfBounds i).

(** [for (i = init; cond(i); i = step(i)) body], with the loop state [s]
    threaded through the body. *)
Fixpoint c_for {St : Type} (fuel : nat) (cond : Z -> bool) (step : Z -> Z)
    (body : Z -> St -> result St) (i : Z) (s : St) : result St :=
  match fuel with
  | O => Err OutOfFuel
  | S fuel' =>
      if cond i
      then s' <- body i s ;; c_for fuel' cond step body (step i) s'
      else Ok s
  end.

Definition incr (i : Z) : Z := i +' 1.
Definition decr (i : Z) : Z := i -' 1.

(** ** c2rtl-verify-mcp/examples/adder.c *)

Module Adder.

Definition add (a b : Z) : Z := a +' b.

(** [result] is a [long long]; both comparisons go through the usual
    arithmetic conversions, and each [return] converts its operand to
    [int]. *)
Definition add_sat (a b : Z) : Z :=
  let result := c_add (cast t_llong (t_int, a)) (cast t_llong (t_int, b)) in
  when (c_gt result (hex_const 0x7FFFFFFF))
    return_ (snd (cast t_int (hex_const 0x7FFFFFFF))) ;;
  when (c_lt result (c_neg (hex_const 0x80000000)))
    return_ (snd (cast t_int (c_neg (hex_const 0x80000000)))) ;;
  snd (cast t_int result).

End Adder.

(** ** c2rtl-verify-mcp/examples/fir_filter.c

    [coeffs] and [delay_line] are pointers: the function receives two
    addresses into one memory [m] and nothing in its signature keeps the
    two arrays apart, so the embedding passes the memory and the two
    addresses. *)

Module FirFilter.

Definition TAPS : Z := 4.

Definition fir_filter (fuel : nat) (input : Z) (coeffs delay_line : Z)
    (m : list Z) : result (Z * list Z) :=
  let result := 0 in
  m <- c_for fuel (fun i => i >? 0) decr
         (fun i m =>
            v <- load m (delay_line + (i -' 1)) ;;
            store m (delay_line + i) v)
         (TAPS -' 1) m ;;
  m <- store m (delay_line + 0) input ;;
  result <- c_for fuel (fun i => i <? TAPS) incr
              (fun i result =>
                 d <- load m (delay_line + i) ;;
                 c <- load m (coeffs + i) ;;
                 Ok (result +' d *' c))
              0 result ;;
  Ok (shr result 16, m).

End FirFilter.

(** ** cbmc-mcp/examples/array_bounds.c *)

Module ArrayBounds.

Definition sum_array (fuel : nat) (arr : list Z) (size : Z) : result Z :=
  let sum := 0 in
  c_for fuel (fun i => i <=? size) incr
    (fun i sum => v <- load arr i ;; Ok (sum +' v))
    0 sum.

Definition safe_array_access (fuel : nat) : result unit :=
  let arr := [1; 2; 3; 4; 5] in
  result <- sum_array fuel arr 5 ;;
  assert 15 (result =? 15).

End ArrayBounds.

(** ** cbmc-mcp/examples/bubble_sort_v1.c *)

Module BubbleSortV1.

Definition bubble_sort (fuel : nat) (arr : list Z) (n : Z)
    : result (list Z) :=
  c_for fuel (fun i => i <? n -' 1) incr
    (fun i arr =>
       c_for fuel (fun j => j <? n -' i -' 1) incr
         (fun j arr =>
            x <- load arr j ;;
            y <- load arr (j +' 1) ;;
            if x >? y
            then
              temp <- load arr j ;;
              v <- load arr (j +' 1) ;;
              arr <- store arr j v ;;
              store arr (j +' 1) temp
            else Ok arr)
         0 arr)
    0 arr.

Definition test_sort (fuel : nat) : result unit :=
  let arr := [5; 2; 8; 1; 9] in
  let n := 5 in
  arr <- bubble_sort fuel arr n ;;
  _ <- c_for fuel (fun i => i <? n -' 1) incr
         (fun i (_ : unit) =>
            x <- load arr i ;;
            y <- load arr (i +' 1) ;;
            assert 25 (x <=? y))
         0 tt ;;
  Ok tt.

End BubbleSortV1.

(** ** cbmc-mcp/examples/equivalence_harness.c *)

Module EquivalenceHarness.

(** An [if] statement whose branch returns, followed by [return x]. *)
Definition abs_v1 (x : Z) : Z :=
  when (x <? 0) return_ (neg x) ;;
  x.

(** A single conditional expression. *)
Definition abs_v2 (x : Z) : Z :=
  if x <? 0 then neg x else x.

(** [x] is left uninitialised in the source: the checker picks it. *)
Definition check_equivalence (x : Z) : result unit :=
  let result1 := abs_v1 x in
  let result2 := abs_v2 x in
  assert 23 (result1 =? result2).

End EquivalenceHarness.

(** ** cbmc-mcp/test_cbmc.c *)

Module TestCbmc.

Definition abs_value (x : Z) : Z :=
  when (x <? 0) return_ (neg x) ;;
  x.

Definition main : result Z :=
  let a := -5 in
  let result := abs_value a in
  assert 13 (result =? 5) ;;;
  assert 16 (abs_value (-10) =? 10) ;;;
  assert 17 (abs_value 10 =? 10) ;;;
  assert 18 (abs_value 0 =? 0) ;;;
  Ok 0.

End TestCbmc.

(** ** cbmc-tests/test_overflow.c *)

Module TestOverflow.

Definition add_overflow (a b : Z) : Z := a +' b.

Definition safe_add (a b : Z) : Z :=
  when ((a >? 0) && (b >? INT_MAX -' a)) return_ INT_MAX ;;
  when ((a <? 0) && (b <? INT_MIN -' a)) return_ INT_MIN ;;
  a +' b.

Definition main : result Z :=
  let result := add_overflow INT_MAX 1 in
  Ok 0.

End TestOverflow.

(** ** cbmc-tests/test_assertion.c *)

Module TestAssertion.

Definition max (a b : Z) : Z :=
  when (a >? b) return_ a ;;
  b.

Definition test_max : result unit :=
  assert 12 (max 5 3 =? 5) ;;;
  assert 13 (max 2 7 =? 7) ;;;
  assert 14 (max 4 4 =? 4) ;;;
  assert 17 (max (-1) (-2) =? -2).

Definition main : result Z :=
  test_max ;;;
  Ok 0.

End TestAssertion.

(** ** cbmc-tests/test_bounds.c *)

Module TestBounds.

Definition array_access_bug (fuel : nat) : result unit :=
  let arr := [1; 2; 3; 4; 5] in
  let sum := 0 in
  _ <- c_for fuel (fun i => i <=? 5) incr
         (fun i sum => v <- load arr i ;; Ok (sum +' v))
         0 sum ;;
  Ok tt.

Definition safe_array_access (fuel : nat) : result unit :=
  let arr := [1; 2; 3; 4; 5] in
  let sum := 0 in
  _ <- c_for fuel (fun i => i <? 5) incr
         (fun i sum => v <- load arr i ;; Ok (sum +' v))
         0 sum ;;
  Ok tt.

Definition main (fuel : nat) : result Z :=
  array_access_bug fuel ;;;
  Ok 0.

End TestBounds.

(** ** cbmc-tests/test_equivalence.c *)

Module TestEquivalence.

(** An [if] statement whose branch returns, followed by [return x]. *)
Definition abs_v1 (x : Z) : Z :=
  when (x <? 0) return_ (neg x) ;;
  x.

(** A single conditional expression. *)
Definition abs_v2 (x : Z) : Z :=
  if x <? 0 then neg x else x.

Definition test_equivalence (x : Z) : result unit :=
  let result1 := abs_v1 x in
  let result2 := abs_v2 x in
  assert 21 (result1 =? result2).

Definition main (x : Z) : result Z :=
  test_equivalence x ;;;
  Ok 0.

End TestEquivalence.

(** ** Reference functions of the specification *)

(** [clamp z lo hi]: the nearest point of [[lo, hi]] to [z]. *)
Definition clamp (z lo hi : Z) : Z :=
  if z <? lo then lo else if z >? hi then hi else z.

(** One pass of adjacent exchanges, on lists: [pre] is the part of the
    array already passed, [x] the element under the cursor, [rest] what
    follows, [k] the number of comparisons still to make. *)
Fixpoint bubble_pass (k : nat) (pre : list Z) (x : Z) (rest : list Z) : list Z :=
  match k, rest with
  | S k', y :: rest' =>
      if x >? y
      then bubble_pass k' (pre ++ [y]) x rest'
      else bubble_pass k' (pre ++ [x]) y rest'
  | _, _ => pre ++ x :: rest
  end.

(** [k] passes, of [k], [k-1], ..., 1 comparisons. *)
Fixpoint bubble_passes (k : nat) (arr : list Z) : list Z :=
  match k, arr with
  | S k', x :: rest => bubble_passes k' (bubble_pass k [] x rest)
  | _, _ => arr
  end.

(** The [n] cells of memory [m] that start at address [p]: the array a
    pointer [p] designates. *)
Definition cells (m : list Z) (p : Z) (n : nat) : list Z :=
  take n (drop (Z.to_nat p) m).

(** [p] points to [TAPS] cells of [m]. *)
Definition valid (m : list Z) (p : Z) : Prop :=
  0 <= p /\ p + FirFilter.TAPS <= Z.of_nat (length m).

(** The delay line at [pd] advanced by one sample, [x] entering at
    position 0 (the oldest sample, at position 3, is dropped). *)
Definition shifted (m : list Z) (pd x : Z) : list Z :=
  <[Z.to_nat pd := x]>
    (<[Z.to_nat (pd + 1) := nth (Z.to_nat pd) m 0]>
       (<[Z.to_nat (pd + 2) := nth (Z.to_nat (pd + 1)) m 0]>
          (<[Z.to_nat (pd + 3) := nth (Z.to_nat (pd + 2)) m 0]> m))).

(** Inner product in [int] arithmetic, accumulated from index 0 upwards. *)
Definition inner_product (d c : list Z) : Z :=
  fold_left (fun acc dc => acc +' fst dc *' snd dc) (zip d c) 0.

(** Sums and inner products in unbounded integers. *)
Definition sum_Z (l : list Z) : Z := foldr Z.add 0 l.

Definition dot_Z (d c : list Z) : Z := sum_Z (zip_with Z.mul d c).

(** ** Machine arithmetic *)

Lemma wrap_in_int z : in_int (wrap z).
Proof.
  unfold in_int, wrap, norm, INT_MIN, INT_MAX; simpl.
  change (2 ^ (32 - 1)) with 2147483648. change (2 ^ 32) with 4294967296.
  pose proof (Z.mod_pos_bound (z + 2147483648) 4294967296). lia.
Qed.

Lemma wrap_small z : in_int z -> wrap z = z.
Proof.
  unfold in_int, wrap, norm, INT_MIN, INT_MAX; simpl. intros Hz.
  change (2 ^ (32 - 1)) with 2147483648. change (2 ^ 32) with 4294967296.
  rewrite Z.mod_small; lia.
Qed.

Lemma norm_llong_small z :
  - 2 ^ 63 <= z < 2 ^ 63 -> norm t_llong z = z.
Proof.
  unfold norm; simpl. intros Hz.
  change (2 ^ (64 - 1)) with (2 ^ 63).
  change (2 ^ 64) with (2 * 2 ^ 63).
  set (h := 2 ^ 63) in *. assert (0 < h) by (subst h; lia).
  rewrite Z.mod_small; lia.
Qed.

Lemma add_exact a b : in_int (a + b) -> a +' b = a + b.
Proof. apply wrap_small. Qed.

Lemma sub_exact a b : in_int (a - b) -> a -' b = a - b.
Proof. apply wrap_small. Qed.

Lemma neg_exact a : in_int (- a) -> neg a = - a.
Proof. apply wrap_small. Qed.

Lemma neg_INT_MIN : neg INT_MIN = INT_MIN.
Proof. reflexivity. Qed.

Lemma incr_exact i : INT_MIN <= i < INT_MAX -> incr i = i + 1.
Proof. intros Hi. apply add_exact. unfold in_int. lia. Qed.

Ltac int_bounds := unfold in_int, INT_MIN, INT_MAX in *; lia.

(** ** adder.c: the saturating adder *)

Section AddSat.
Import Adder.

(** The constant [0x80000000] does not fit [int], so it is an
    [unsigned int]; negating it leaves 2147483648, still unsigned. *)
Lemma hex_0x80000000_unsigned :
  hex_const 0x80000000 = (t_uint, 2147483648) /\
  c_neg (hex_const 0x80000000) = (t_uint, 2147483648).
Proof. split; reflexivity. Qed.

Lemma hex_0x7FFFFFFF_int : hex_const 0x7FFFFFFF = (t_int, INT_MAX).
Proof. reflexivity. Qed.

(** What the function computes on every pair of [int]s: the lower test
    compares [result] with +2147483648 and therefore succeeds whenever
    the upper test has failed. *)
Lemma add_sat_computes a b :
  in_int a -> in_int b ->
  add_sat a b = if a + b >? INT_MAX then INT_MAX else INT_MIN.
Proof.
  intros Ha Hb. unfold add_sat, or_else, if_return.
  destruct hex_0x80000000_unsigned as [_ ->]. rewrite hex_0x7FFFFFFF_int.
  unfold c_gt, c_lt, c_add, cast; cbn [fst snd arith_conv].
  rewrite !(norm_llong_small a), !(norm_llong_small b) by int_bounds.
  rewrite !(norm_llong_small (a + b)) by int_bounds.
  rewrite (norm_llong_small INT_MAX) by int_bounds.
  rewrite (norm_llong_small 2147483648) by lia.
  change (norm t_int INT_MAX) with INT_MAX.
  change (norm t_int 2147483648) with INT_MIN.
  rewrite Z.gtb_ltb.
  destruct (INT_MAX <? a + b) eqn:Hhi; [reflexivity |].
  apply Z.ltb_ge in Hhi.
  destruct (a + b <? 2147483648) eqn:Hlo; [reflexivity |].
  apply Z.ltb_ge in Hlo. int_bounds.
Qed.

(** C1, evaluated at [add_sat(1, 2)]: the exact sum 3 lies inside the
    range of [int], the clamp of the specification leaves it alone, and
    the function returns [INT_MIN]. *)
Theorem add_sat_1_2 :
  add_sat 1 2 = INT_MIN /\ clamp (1 + 2) INT_MIN INT_MAX = 3.
Proof. split; reflexivity. Qed.

(** The two saturating branches of C1 do hold: only sums inside the
    range are lost. *)
Lemma add_sat_saturates a b :
  in_int a -> in_int b ->
  (INT_MAX < a + b -> add_sat a b = INT_MAX) /\
  (a + b < INT_MIN -> add_sat a b = INT_MIN) /\
  (INT_MIN <= a + b <= INT_MAX -> add_sat a b = INT_MIN).
Proof.
  intros Ha Hb. rewrite (add_sat_computes a b Ha Hb).
  repeat split; intros H.
  - apply Z.gtb_lt in H. now rewrite H.
  - destruct (a + b >? INT_MAX) eqn:E; [apply Z.gtb_lt in E; int_bounds | reflexivity].
  - destruct (a + b >? INT_MAX) eqn:E; [apply Z.gtb_lt in E; int_bounds | reflexivity].
Qed.

End AddSat.

(** ** test_overflow.c: the overflow-safe adder *)

Section SafeAdd.
Import TestOverflow.

Lemma safe_add_clamp a b :
  in_int a -> in_int b -> safe_add a b = clamp (a + b) INT_MIN INT_MAX.
Proof.
  intros Ha Hb. unfold safe_add, clamp, or_else, if_return.
  destruct (a >? 0) eqn:Hpos; cbn [andb].
  - apply Z.gtb_lt in Hpos.
    rewrite (sub_exact INT_MAX a) by int_bounds.
    destruct (b >? INT_MAX - a) eqn:Hov.
    + apply Z.gtb_lt in Hov.
      replace (a + b <? INT_MIN) with false by (symmetry; apply Z.ltb_ge; int_bounds).
      replace (a + b >? INT_MAX) with true by (symmetry; apply Z.gtb_lt; lia).
      reflexivity.
    + rewrite Z.gtb_ltb in Hov. apply Z.ltb_ge in Hov.
      replace (a <? 0) with false by (symmetry; apply Z.ltb_ge; lia).
      cbn [andb].
      rewrite add_exact by int_bounds.
      replace (a + b <? INT_MIN) with false by (symmetry; apply Z.ltb_ge; int_bounds).
      replace (a + b >? INT_MAX) with false
        by (symmetry; rewrite Z.gtb_ltb; apply Z.ltb_ge; lia).
      reflexivity.
  - rewrite Z.gtb_ltb in Hpos. apply Z.ltb_ge in Hpos.
    destruct (a <? 0) eqn:Hneg; cbn [andb].
    + apply Z.ltb_lt in Hneg.
      rewrite (sub_exact INT_MIN a) by int_bounds.
      destruct (b <? INT_MIN - a) eqn:Hov.
      * apply Z.ltb_lt in Hov.
        replace (a + b <? INT_MIN) with true by (symmetry; apply Z.ltb_lt; lia).
        reflexivity.
      * apply Z.ltb_ge in Hov.
        rewrite add_exact by int_bounds.
        replace (a + b <? INT_MIN) with false by (symmetry; apply Z.ltb_ge; lia).
        replace (a + b >? INT_MAX) with false
          by (symmetry; rewrite Z.gtb_ltb; apply Z.ltb_ge; int_bounds).
        reflexivity.
    + apply Z.ltb_ge in Hneg.
      assert (a = 0) as -> by lia.
      rewrite add_exact by int_bounds.
      replace (0 + b <? INT_MIN) with false by (symmetry; apply Z.ltb_ge; int_bounds).
      replace (0 + b >? INT_MAX) with false
        by (symmetry; rewrite Z.gtb_ltb; apply Z.ltb_ge; int_bounds).
      reflexivity.
Qed.

(** C5: on every pair of [int]s [safe_add] returns the exact sum when it
    is representable, [INT_MAX] when the exact sum is above the range and
    [INT_MIN] when it is below. *)
Theorem safe_add_correct a b :
  in_int a -> in_int b ->
  (INT_MIN <= a + b <= INT_MAX -> safe_add a b = a + b) /\
  (INT_MAX < a + b -> safe_add a b = INT_MAX) /\
  (a + b < INT_MIN -> safe_add a b = INT_MIN).
Proof.
  intros Ha Hb. rewrite (safe_add_clamp a b Ha Hb). unfold clamp.
  repeat split; intros H.
  - replace (a + b <? INT_MIN) with false by (symmetry; apply Z.ltb_ge; lia).
    replace (a + b >? INT_MAX) with false
      by (symmetry; rewrite Z.gtb_ltb; apply Z.ltb_ge; lia).
    reflexivity.
  - replace (a + b <? INT_MIN) with false by (symmetry; apply Z.ltb_ge; int_bounds).
    replace (a + b >? INT_MAX) with true by (symmetry; apply Z.gtb_lt; lia).
    reflexivity.
  - replace (a + b <? INT_MIN) with true by (symmetry; apply Z.ltb_lt; lia).
    reflexivity.
Qed.

Lemma safe_add_correct_witness :
  safe_add 2 3 = 2 + 3 /\
  safe_add INT_MAX 1 = INT_MAX /\
  safe_add INT_MIN (-1) = INT_MIN.
Proof.
  split; [| split].
  - apply (safe_add_correct 2 3); unfold in_int, INT_MIN, INT_MAX; lia.
  - apply (safe_add_correct INT_MAX 1); unfold in_int, INT_MIN, INT_MAX; lia.
  - apply (safe_add_correct INT_MIN (-1)); unfold in_int, INT_MIN, INT_MAX; lia.
Defined.

End SafeAdd.

(** ** Absolute value: test_cbmc.c and the two equivalence harnesses *)

Section AbsoluteValue.

(** C7: away from [INT_MIN] the result of [abs_value] is non-negative and
    is the argument or its opposite; [abs_value(-10) = 10] and
    [abs_value(0) = 0]. *)
Theorem abs_value_correct :
  (forall x, in_int x -> x <> INT_MIN ->
     TestCbmc.abs_value x >= 0 /\
     (TestCbmc.abs_value x = x \/ TestCbmc.abs_value x = - x)) /\
  TestCbmc.abs_value (-10) = 10 /\
  TestCbmc.abs_value 0 = 0.
Proof.
  split; [| split; reflexivity].
  intros x Hx Hmin. unfold TestCbmc.abs_value, or_else, if_return.
  destruct (x <? 0) eqn:Hneg.
  - apply Z.ltb_lt in Hneg. rewrite neg_exact by int_bounds. lia.
  - apply Z.ltb_ge in Hneg. lia.
Qed.

Lemma abs_value_correct_witness :
  TestCbmc.abs_value (-5) >= 0 /\
  (TestCbmc.abs_value (-5) = -5 \/ TestCbmc.abs_value (-5) = - -5).
Proof.
  apply (proj1 abs_value_correct (-5)); unfold in_int, INT_MIN, INT_MAX; lia.
Defined.

(** At [INT_MIN] the negation wraps and the result is negative. *)
Lemma abs_value_INT_MIN : TestCbmc.abs_value INT_MIN = INT_MIN.
Proof. reflexivity. Qed.

Lemma test_cbmc_main_passes : TestCbmc.main = Ok 0.
Proof. reflexivity. Qed.

(** C4: [abs_v1] and [abs_v2] agree on every argument, [INT_MIN]
    included, so the assertion [result1 == result2] of both equivalence
    drivers holds whatever value the checker picks for [x]. *)
Theorem abs_v1_v2_equivalent x :
  TestEquivalence.abs_v1 x = TestEquivalence.abs_v2 x /\
  EquivalenceHarness.abs_v1 x = EquivalenceHarness.abs_v2 x /\
  TestEquivalence.test_equivalence x = Ok tt /\
  TestEquivalence.main x = Ok 0 /\
  EquivalenceHarness.check_equivalence x = Ok tt.
Proof.
  assert (H1 : TestEquivalence.abs_v1 x = TestEquivalence.abs_v2 x).
  { unfold TestEquivalence.abs_v1, TestEquivalence.abs_v2, or_else, if_return.
    destruct (x <? 0); reflexivity. }
  assert (H2 : EquivalenceHarness.abs_v1 x = EquivalenceHarness.abs_v2 x).
  { unfold EquivalenceHarness.abs_v1, EquivalenceHarness.abs_v2, or_else, if_return.
    destruct (x <? 0); reflexivity. }
  assert (H3 : TestEquivalence.test_equivalence x = Ok tt).
  { unfold TestEquivalence.test_equivalence, assert.
    rewrite H1, Z.eqb_refl. reflexivity. }
  repeat split; try assumption.
  - unfold TestEquivalence.main. rewrite H3. reflexivity.
  - unfold EquivalenceHarness.check_equivalence, assert.
    rewrite H2, Z.eqb_refl. reflexivity.
Qed.

Lemma abs_v1_v2_INT_MIN :
  TestEquivalence.abs_v1 INT_MIN = INT_MIN /\
  TestEquivalence.abs_v2 INT_MIN = INT_MIN.
Proof. split; reflexivity. Qed.

End AbsoluteValue.

(** ** test_assertion.c: max and its driver *)

Section Max.
Import TestAssertion.

(** C8: [max x y] is at least [x], at least [y], and one of the two;
    [max(5,3) = 5], [max(2,7) = 7], [max(4,4) = 4]. *)
Theorem max_correct :
  (forall x y, max x y >= x /\ max x y >= y /\ (max x y = x \/ max x y = y)) /\
  max 5 3 = 5 /\ max 2 7 = 7 /\ max 4 4 = 4.
Proof.
  split; [| repeat split].
  intros x y. unfold max, or_else, if_return.
  destruct (x >? y) eqn:Hgt.
  - apply Z.gtb_lt in Hgt. lia.
  - rewrite Z.gtb_ltb in Hgt. apply Z.ltb_ge in Hgt. lia.
Qed.

(** C9: the first three assertions of [test_max] succeed, the fourth
    (source line 17) is violated because [max(-1,-2)] is [-1], and so
    neither [test_max] nor [main] completes. *)
Theorem test_max_fails_at_fourth :
  assert 12 (max 5 3 =? 5) = Ok tt /\
  assert 13 (max 2 7 =? 7) = Ok tt /\
  assert 14 (max 4 4 =? 4) = Ok tt /\
  max (-1) (-2) = -1 /\
  assert 17 (max (-1) (-2) =? -2) = Err (AssertionViolated 17) /\
  test_max = Err (AssertionViolated 17) /\
  main = Err (AssertionViolated 17).
Proof. repeat split. Qed.

End Max.

(** ** Loops and array accesses *)

Lemma c_for_step {St : Type} fuel cond step (body : Z -> St -> result St) i s :
  cond i = true ->
  c_for (S fuel) cond step body i s =
  (s' <- body i s ;; c_for fuel cond step body (step i) s').
Proof. intros H. simpl. now rewrite H. Qed.

Lemma c_for_exit {St : Type} fuel cond step (body : Z -> St -> result St) i s :
  cond i = false ->
  c_for (S fuel) cond step body i s = Ok s.
Proof. intros H. simpl. now rewrite H. Qed.

Lemma load_ok a i :
  0 <= i < Z.of_nat (length a) -> load a i = Ok (nth (Z.to_nat i) a 0).
Proof.
  intros Hi. unfold load.
  replace (0 <=? i) with true by (symmetry; apply Z.leb_le; lia).
  replace (i <? Z.of_nat (length a)) with true by (symmetry; apply Z.ltb_lt; lia).
  reflexivity.
Qed.

Lemma load_past_end a : load a (Z.of_nat (length a)) = Err (OutOfBounds (Z.of_nat (length a))).
Proof.
  unfold load. rewrite Z.ltb_irrefl, andb_false_r. reflexivity.
Qed.

Lemma store_ok a i v :
  0 <= i < Z.of_nat (length a) -> store a i v = Ok (<[Z.to_nat i := v]> a).
Proof.
  intros Hi. unfold store.
  replace (0 <=? i) with true by (symmetry; apply Z.leb_le; lia).
  replace (i <? Z.of_nat (length a)) with true by (symmetry; apply Z.ltb_lt; lia).
  reflexivity.
Qed.

Lemma load_middle pre x rest :
  load (pre ++ x :: rest) (Z.of_nat (length pre)) = Ok x.
Proof.
  rewrite load_ok.
  - rewrite Nat2Z.id, nth_middle. reflexivity.
  - rewrite length_app; simpl. lia.
Qed.

Lemma store_middle pre x rest v :
  store (pre ++ x :: rest) (Z.of_nat (length pre)) v = Ok (pre ++ v :: rest).
Proof.
  rewrite store_ok.
  - rewrite Nat2Z.id. f_equal.
    induction pre as [| p pre IH]; simpl; [reflexivity | now rewrite IH].
  - rewrite length_app; simpl. lia.
Qed.

(** ** array_bounds.c *)

Section SumArray.
Import ArrayBounds.

Variable arr : list Z.
Hypothesis arr_fits : Z.of_nat (length arr) <= INT_MAX.

Local Abbreviation n := (Z.of_nat (length arr)).
Local Abbreviation body := (fun i sum => v <- load arr i ;; Ok (sum +' v)).

(** Started anywhere inside the array, the loop walks up to index
    [size] and reads it. *)
Lemma sum_loop_overruns (k : nat) : forall fuel i sum,
  0 <= i -> i + Z.of_nat k = n -> (k < fuel)%nat ->
  c_for fuel (fun i => i <=? n) incr body i sum = Err (OutOfBounds n).
Proof.
  induction k as [| k IH]; intros fuel i sum Hi Hk Hfuel;
    (destruct fuel as [| fuel]; [lia |]);
    (rewrite c_for_step by (apply Z.leb_le; lia)); cbv beta.
  - replace i with n by lia. rewrite load_past_end. reflexivity.
  - rewrite load_ok by lia. cbn [bind].
    rewrite incr_exact by int_bounds.
    apply IH; lia.
Qed.

Lemma sum_loop_never_returns fuel : forall i sum r,
  0 <= i <= n ->
  c_for fuel (fun i => i <=? n) incr body i sum <> Ok r.
Proof.
  induction fuel as [| fuel IH]; intros i sum r Hi; [discriminate |].
  rewrite c_for_step by (apply Z.leb_le; lia). cbv beta.
  destruct (Z.eq_dec i n) as [-> | Hne].
  - rewrite load_past_end. discriminate.
  - rewrite load_ok by lia. cbn [bind].
    rewrite incr_exact by int_bounds.
    apply IH. lia.
Qed.

(** With [size] the length of the array, [sum_array] subscripts the
    array at [size], one past its last element. *)
Lemma sum_array_overruns fuel :
  (length arr < fuel)%nat ->
  sum_array fuel arr n = Err (OutOfBounds n).
Proof.
  intros Hfuel. unfold sum_array.
  apply (sum_loop_overruns (length arr)); lia.
Qed.

Lemma sum_array_never_returns fuel r : sum_array fuel arr n <> Ok r.
Proof. unfold sum_array. apply sum_loop_never_returns. lia. Qed.

End SumArray.

(** C2, evaluated at the call of [safe_array_access]: on [{1,2,3,4,5}] with
    [size = 5] the loop reads [arr[5]], outside the array, so [sum_array]
    does not return 15 (with no amount of fuel does it return at all) and
    the assertion of the driver is never reached. *)
Theorem sum_array_1_5_out_of_bounds :
  (forall fuel, ArrayBounds.sum_array (6 + fuel) [1; 2; 3; 4; 5] 5
                = Err (OutOfBounds 5)) /\
  (forall fuel r, ArrayBounds.sum_array fuel [1; 2; 3; 4; 5] 5 <> Ok r) /\
  (forall fuel, ArrayBounds.safe_array_access (6 + fuel) = Err (OutOfBounds 5)).
Proof.
  assert (Hfit : Z.of_nat (length [1; 2; 3; 4; 5]) <= INT_MAX) by (simpl; int_bounds).
  assert (H : forall fuel, ArrayBounds.sum_array (6 + fuel) [1; 2; 3; 4; 5] 5
                           = Err (OutOfBounds 5)).
  { intros fuel. apply (sum_array_overruns [1; 2; 3; 4; 5] Hfit). simpl. lia. }
  split; [exact H | split].
  - intros fuel r. apply (sum_array_never_returns [1; 2; 3; 4; 5] Hfit).
  - intros fuel. unfold ArrayBounds.safe_array_access. rewrite H. reflexivity.
Qed.

(** ** bubble_sort_v1.c *)

Section BubbleSort.
Import BubbleSortV1.

Lemma bubble_pass_bubbles_max k : forall pre x rest,
  (k <= length rest)%nat ->
  exists mid m,
    bubble_pass k pre x rest = pre ++ mid ++ m :: drop k rest /\
    Permutation (mid ++ [m]) (x :: take k rest) /\
    Forall (fun z => z <= m) mid /\
    length mid = k.
Proof.
  induction k as [| k IH]; intros pre x rest Hk.
  - exists [], x. simpl. rewrite drop_0, take_0. repeat split; auto.
  - destruct rest as [| y rest]; [simpl in Hk; lia |].
    simpl in Hk. cbn [bubble_pass drop take].
    destruct (x >? y) eqn:Hxy.
    + apply Z.gtb_lt in Hxy.
      destruct (IH (pre ++ [y]) x rest) as (mid & m & Heq & Hperm & Hle & Hlen); [lia |].
      exists (y :: mid), m. repeat split.
      * rewrite Heq, <- app_assoc. reflexivity.
      * simpl. rewrite Hperm. apply perm_swap.
      * constructor; [| exact Hle].
        assert (Hx : x ∈ mid ++ [m]) by (rewrite Hperm; left).
        apply elem_of_app in Hx as [Hx | Hx].
        -- rewrite Forall_forall in Hle. specialize (Hle x Hx). lia.
        -- apply list_elem_of_singleton in Hx. lia.
      * simpl. now rewrite Hlen.
    + rewrite Z.gtb_ltb in Hxy. apply Z.ltb_ge in Hxy.
      destruct (IH (pre ++ [x]) y rest) as (mid & m & Heq & Hperm & Hle & Hlen); [lia |].
      exists (x :: mid), m. repeat split.
      * rewrite Heq, <- app_assoc. reflexivity.
      * simpl. now rewrite Hperm.
      * constructor; [| exact Hle].
        assert (Hy : y ∈ mid ++ [m]) by (rewrite Hperm; left).
        apply elem_of_app in Hy as [Hy | Hy].
        -- rewrite Forall_forall in Hle. specialize (Hle y Hy). lia.
        -- apply list_elem_of_singleton in Hy. lia.
      * simpl. now rewrite Hlen.
Qed.

Local Abbreviation inner_body :=
  (fun j arr =>
     x <- load arr j ;;
     y <- load arr (j +' 1) ;;
     if x >? y
     then
       temp <- load arr j ;;
       v <- load arr (j +' 1) ;;
       arr <- store arr j v ;;
       store arr (j +' 1) temp
     else Ok arr).

(** One step of the inner loop with the cursor on [x], followed by [y]. *)
Lemma inner_body_step pre x y rest :
  Z.of_nat (length (pre ++ x :: y :: rest)) <= INT_MAX ->
  inner_body (Z.of_nat (length pre)) (pre ++ x :: y :: rest) =
  Ok (if x >? y then (pre ++ [y]) ++ x :: rest else (pre ++ [x]) ++ y :: rest).
Proof.
  intros Hfit. rewrite length_app in Hfit. simpl in Hfit.
  assert (Hj1 : Z.of_nat (length pre) +' 1 = Z.of_nat (length (pre ++ [x]))).
  { rewrite add_exact by int_bounds. rewrite length_app. simpl. lia. }
  assert (Hsplit : pre ++ x :: y :: rest = (pre ++ [x]) ++ y :: rest)
    by (now rewrite <- app_assoc).
  cbv beta. rewrite Hj1.
  rewrite load_middle. cbn [bind].
  rewrite Hsplit at 1. rewrite load_middle. cbn [bind].
  destruct (x >? y); [| now rewrite Hsplit].
  rewrite Hsplit at 1. rewrite load_middle. cbn [bind].
  rewrite store_middle. cbn [bind].
  replace (length (pre ++ [x])) with (length (pre ++ [y]))
    by (rewrite !length_app; reflexivity).
  replace (pre ++ y :: y :: rest) with ((pre ++ [y]) ++ y :: rest)
    by (now rewrite <- app_assoc).
  now rewrite store_middle.
Qed.

(** The inner loop is [bubble_pass]. *)
Lemma inner_loop_pass k : forall fuel pre x rest hi,
  Z.of_nat (length (pre ++ x :: rest)) <= INT_MAX ->
  (k <= length rest)%nat -> (k < fuel)%nat ->
  hi = Z.of_nat (length pre) + Z.of_nat k ->
  c_for fuel (fun j => j <? hi) incr inner_body
    (Z.of_nat (length pre)) (pre ++ x :: rest)
  = Ok (bubble_pass k pre x rest).
Proof.
  induction k as [| k IH]; intros fuel pre x rest hi Hfit Hk Hfuel ->;
    (destruct fuel as [| fuel]; [lia |]).
  - rewrite c_for_exit by (apply Z.ltb_ge; lia).
    destruct rest; reflexivity.
  - destruct rest as [| y rest]; [simpl in Hk; lia |]. simpl in Hk.
    rewrite c_for_step by (apply Z.ltb_lt; lia).
    rewrite inner_body_step by exact Hfit. cbn [bind bubble_pass].
    assert (Hlen : Z.of_nat (length pre) + 1 <= INT_MAX).
    { rewrite length_app in Hfit. simpl in Hfit. lia. }
    rewrite incr_exact by int_bounds.
    destruct (x >? y).
    + replace (Z.of_nat (length pre) + 1) with (Z.of_nat (length (pre ++ [y])))
        by (rewrite length_app; simpl; lia).
      apply IH; try lia.
      * rewrite !length_app in *. simpl in *. lia.
      * rewrite length_app. simpl. lia.
    + replace (Z.of_nat (length pre) + 1) with (Z.of_nat (length (pre ++ [x])))
        by (rewrite length_app; simpl; lia).
      apply IH; try lia.
      * rewrite !length_app in *. simpl in *. lia.
      * rewrite length_app. simpl. lia.
Qed.

Lemma bubble_pass_length k : forall pre x rest,
  length (bubble_pass k pre x rest) = length (pre ++ x :: rest).
Proof.
  induction k as [| k IH]; intros pre x rest; [destruct rest; reflexivity |].
  destruct rest as [| y rest]; [reflexivity |].
  cbn [bubble_pass]. destruct (x >? y); rewrite IH, !length_app; simpl; lia.
Qed.

(** The outer loop, entered at [i] with [k] passes to go, is
    [bubble_passes k].  [inner_fuel] is the fuel of the inner loops. *)
Lemma outer_loop_passes inner_fuel n k : forall fuel arr i,
  n = Z.of_nat (length arr) -> n <= INT_MAX ->
  0 <= i -> i + Z.of_nat k + 1 = n ->
  (k < fuel)%nat -> (length arr < inner_fuel)%nat ->
  c_for fuel (fun i => i <? n -' 1) incr
    (fun i arr => c_for inner_fuel (fun j => j <? n -' i -' 1) incr inner_body 0 arr)
    i arr
  = Ok (bubble_passes k arr).
Proof.
  induction k as [| k IH]; intros fuel arr i Hn Hfit Hi0 Hi Hfuel Hinner;
    (destruct fuel as [| fuel]; [lia |]).
  - rewrite c_for_exit by (rewrite sub_exact by int_bounds; apply Z.ltb_ge; lia).
    destruct arr; reflexivity.
  - destruct arr as [| x rest]; [simpl in Hn; lia |]. simpl in Hn, Hinner.
    rewrite c_for_step by (rewrite sub_exact by int_bounds; apply Z.ltb_lt; lia).
    cbv beta.
    rewrite (sub_exact n i), (sub_exact (n - i) 1) by int_bounds.
    change (x :: rest) with ([] ++ x :: rest) at 1.
    change 0 with (Z.of_nat (length (@nil Z))) at 1.
    rewrite (inner_loop_pass (S k)); [| simpl; lia | lia | lia | simpl; lia].
    cbn [bind bubble_passes].
    rewrite incr_exact by int_bounds.
    apply IH; rewrite ?bubble_pass_length; simpl; lia.
Qed.

(** [u] is the part still to sort, [t] the sorted tail already in place:
    every element of [u] is below every element of [t]. *)
Lemma bubble_passes_sorts k : forall u t,
  length u = S k ->
  StronglySorted Z.le t ->
  Forall (fun a => Forall (Z.le a) t) u ->
  StronglySorted Z.le (bubble_passes k (u ++ t)) /\
  Permutation (u ++ t) (bubble_passes k (u ++ t)).
Proof.
  induction k as [| k IH]; intros u t Hlen Hsorted Hbelow.
  - destruct u as [| a [| ? ?]]; try discriminate. simpl.
    split; [| reflexivity].
    constructor; [exact Hsorted | now inversion Hbelow].
  - destruct u as [| x rest]; [discriminate |]. simpl in Hlen.
    cbn [app bubble_passes].
    destruct (bubble_pass_bubbles_max (S k) [] x (rest ++ t))
      as (mid & m & Heq & Hperm & Hle & Hmid);
      [rewrite length_app; lia |].
    rewrite drop_app_length' in Heq by lia.
    rewrite take_app_length' in Hperm by lia.
    rewrite Heq. cbn [app].
    assert (Hin : forall a, a ∈ mid ++ [m] -> Forall (Z.le a) t).
    { intros a Ha. rewrite Hperm in Ha.
      rewrite Forall_forall in Hbelow. now apply Hbelow. }
    destruct (IH mid (m :: t)) as [Hs Hp].
    + lia.
    + constructor; [exact Hsorted |].
      apply Hin, elem_of_app. right. now apply list_elem_of_singleton.
    + rewrite Forall_forall. intros a Ha. constructor.
      * rewrite Forall_forall in Hle. now apply Hle.
      * apply Hin, elem_of_app. now left.
    + split; [exact Hs |].
      rewrite <- Hp.
      change (x :: rest ++ t) with ((x :: rest) ++ t).
      rewrite <- Hperm, <- app_assoc. reflexivity.
Qed.

(** [bubble_sort] on a whole array is [bubble_passes]. *)
Lemma bubble_sort_passes fuel s :
  Z.of_nat (length s) <= INT_MAX -> (length s < fuel)%nat ->
  bubble_sort fuel s (Z.of_nat (length s)) = Ok (bubble_passes (length s - 1) s).
Proof.
  intros Hfit Hfuel. unfold bubble_sort.
  destruct s as [| x rest].
  - destruct fuel as [| fuel]; [simpl in Hfuel; lia |]. reflexivity.
  - apply outer_loop_passes; simpl in *; lia.
Qed.

(** C3: for an array [s] of length [n], [bubble_sort(s, n)] returns, and
    leaves a non-decreasing permutation of [s]; on [{5,2,8,1,9}] it leaves
    [{1,2,5,8,9}], and the assertions of [test_sort] hold. *)
Theorem bubble_sort_correct :
  (forall fuel s,
     Z.of_nat (length s) <= INT_MAX -> (length s < fuel)%nat ->
     exists s',
       bubble_sort fuel s (Z.of_nat (length s)) = Ok s' /\
       Sorted Z.le s' /\ Permutation s s') /\
  (forall fuel, bubble_sort (6 + fuel) [5; 2; 8; 1; 9] 5 = Ok [1; 2; 5; 8; 9]) /\
  test_sort 6 = Ok tt.
Proof.
  split; [| split; [| reflexivity]].
  - intros fuel s Hfit Hfuel.
    exists (bubble_passes (length s - 1) s).
    split; [now apply bubble_sort_passes |].
    destruct s as [| x rest]; [split; constructor |].
    destruct (bubble_passes_sorts (length rest) (x :: rest) []) as [Hs Hp].
    + reflexivity.
    + constructor.
    + apply Forall_forall. intros; constructor.
    + rewrite app_nil_r in Hs, Hp. simpl. rewrite Nat.sub_0_r.
      split; [now apply StronglySorted_Sorted | exact Hp].
  - intros fuel.
    change 5 with (Z.of_nat (length [5; 2; 8; 1; 9])).
    rewrite bubble_sort_passes; [reflexivity | simpl; int_bounds | simpl; lia].
Qed.

Lemma bubble_sort_correct_witness :
  exists s',
    bubble_sort 4 [3; 1; 2] (Z.of_nat (length [3; 1; 2])) = Ok s' /\
    Sorted Z.le s' /\ Permutation [3; 1; 2] s'.
Proof.
  apply (proj1 bubble_sort_correct 4%nat [3; 1; 2]).
  - simpl. unfold INT_MAX. lia.
  - simpl. lia.
Defined.

End BubbleSort.

(** ** fir_filter.c *)

Section Fir.
Import FirFilter.

Local Notation "m @ a" := (nth (Z.to_nat a) m 0) (at level 20, a at next level).

Lemma nth_insert_eq (l : list Z) a v :
  0 <= a < Z.of_nat (length l) -> (<[Z.to_nat a := v]> l) @ a = v.
Proof.
  intros Ha. rewrite nth_lookup, list_lookup_insert_eq by lia. reflexivity.
Qed.

Lemma nth_insert_ne (l : list Z) a b v :
  0 <= a -> 0 <= b -> a <> b -> (<[Z.to_nat a := v]> l) @ b = l @ b.
Proof.
  intros Ha Hb Hab. rewrite !nth_lookup, list_lookup_insert_ne by lia.
  reflexivity.
Qed.

Lemma cells_cons (m : list Z) p n :
  0 <= p < Z.of_nat (length m) ->
  cells m p (S n) = m @ p :: cells m (p + 1) n.
Proof.
  intros Hp. unfold cells.
  destruct (nth_lookup_or_length m (Z.to_nat p) 0) as [Hl | Hl]; [| lia].
  rewrite (drop_S _ _ _ Hl). cbn [take].
  replace (Z.to_nat (p + 1)) with (S (Z.to_nat p)) by lia. reflexivity.
Qed.

Lemma cells_4 (m : list Z) p :
  valid m p ->
  cells m p 4 = [m @ p; m @ (p + 1); m @ (p + 2); m @ (p + 3)].
Proof.
  unfold valid, TAPS. intros [Hp Hlen].
  rewrite !cells_cons by lia.
  replace (p + 1 + 1) with (p + 2) by lia.
  replace (p + 2 + 1) with (p + 3) by lia.
  unfold cells. rewrite take_0. reflexivity.
Qed.

Lemma shift_loop fuel pd m :
  (4 <= fuel)%nat -> valid m pd ->
  c_for fuel (fun i => i >? 0) decr
    (fun i m => v <- load m (pd + (i -' 1)) ;; store m (pd + i) v)
    (TAPS -' 1) m
  = Ok (<[Z.to_nat (pd + 1) := m @ pd]>
          (<[Z.to_nat (pd + 2) := m @ (pd + 1)]>
             (<[Z.to_nat (pd + 3) := m @ (pd + 2)]> m))).
Proof.
  unfold valid, TAPS. intros Hfuel [Hp Hlen].
  destruct fuel as [| [| [| [| fuel]]]]; try lia.
  change (4 -' 1) with 3.
  rewrite c_for_step by reflexivity. cbv beta. change (3 -' 1) with 2.
  rewrite load_ok by lia. cbn [bind].
  rewrite store_ok by lia. cbn [bind]. change (decr 3) with 2.
  rewrite c_for_step by reflexivity. cbv beta. change (2 -' 1) with 1.
  rewrite load_ok by (rewrite !length_insert; lia). cbn [bind].
  rewrite store_ok by (rewrite !length_insert; lia). cbn [bind].
  change (decr 2) with 1.
  rewrite c_for_step by reflexivity. cbv beta. change (1 -' 1) with 0.
  rewrite load_ok by (rewrite !length_insert; lia). cbn [bind].
  rewrite store_ok by (rewrite !length_insert; lia). cbn [bind].
  change (decr 1) with 0.
  rewrite c_for_exit by reflexivity.
  rewrite Z.add_0_r.
  rewrite !nth_insert_ne by lia.
  reflexivity.
Qed.

Lemma product_loop fuel pc pd m :
  (5 <= fuel)%nat -> valid m pc -> valid m pd ->
  c_for fuel (fun i => i <? TAPS) incr
    (fun i result =>
       d <- load m (pd + i) ;;
       c <- load m (pc + i) ;;
       Ok (result +' d *' c))
    0 0
  = Ok (inner_product (cells m pd 4) (cells m pc 4)).
Proof.
  intros Hfuel Hc Hd. rewrite !cells_4 by assumption.
  unfold valid, TAPS in *. destruct Hc as [Hc Hclen], Hd as [Hd Hdlen].
  destruct fuel as [| [| [| [| [| fuel]]]]]; try lia.
  do 4 (rewrite c_for_step by reflexivity; cbv beta;
        rewrite load_ok by lia; cbn [bind];
        rewrite load_ok by lia; cbn [bind];
        change (incr 0) with 1; change (incr 1) with 2;
        change (incr 2) with 3; change (incr 3) with 4).
  rewrite c_for_exit by reflexivity.
  rewrite !Z.add_0_r. unfold inner_product.
  cbn [zip_with fold_left fst snd]. reflexivity.
Qed.

Lemma shifted_length (m : list Z) pd x : length (shifted m pd x) = length m.
Proof. unfold shifted. now rewrite !length_insert. Qed.

(** The whole function: it returns, the memory is [shifted], and the
    result is the scaled inner product of the two arrays as they are
    after the shift. *)
Lemma fir_filter_run fuel x pc pd m :
  (5 <= fuel)%nat -> valid m pc -> valid m pd ->
  fir_filter fuel x pc pd m =
  Ok (shr (inner_product (cells (shifted m pd x) pd 4)
                         (cells (shifted m pd x) pc 4)) 16,
      shifted m pd x).
Proof.
  intros Hfuel Hc Hd. unfold fir_filter.
  rewrite shift_loop by (assumption || lia). cbn [bind].
  rewrite store_ok by (destruct Hd; unfold TAPS in *; rewrite !length_insert; lia).
  cbn [bind]. rewrite Z.add_0_r. fold (shifted m pd x).
  rewrite product_loop; [reflexivity | exact Hfuel | |];
    unfold valid in *; rewrite shifted_length; assumption.
Qed.

Lemma shifted_delay_line m pd x :
  valid m pd ->
  cells (shifted m pd x) pd 4 = [x; m @ pd; m @ (pd + 1); m @ (pd + 2)].
Proof.
  intros Hd.
  rewrite cells_4 by (unfold valid in *; now rewrite shifted_length).
  destruct Hd as [Hp Hlen]. unfold TAPS in Hlen.
  unfold shifted.
  f_equal; [| f_equal; [| f_equal; [| f_equal]]].
  - rewrite nth_insert_eq by (rewrite !length_insert; lia). reflexivity.
  - rewrite nth_insert_ne by lia.
    rewrite nth_insert_eq by (rewrite !length_insert; lia). reflexivity.
  - rewrite !(nth_insert_ne _ _ (pd + 2)) by lia.
    rewrite nth_insert_eq by (rewrite !length_insert; lia). reflexivity.
  - rewrite !(nth_insert_ne _ _ (pd + 3)) by lia.
    rewrite nth_insert_eq by lia. reflexivity.
Qed.

(** Only the four cells of the delay line are written. *)
Lemma shifted_frame (m : list Z) pd x a :
  0 <= pd -> 0 <= a -> ~ (pd <= a < pd + TAPS) ->
  (shifted m pd x) @ a = m @ a.
Proof.
  unfold TAPS, shifted. intros Hp Ha Hout.
  rewrite !nth_insert_ne by lia. reflexivity.
Qed.

Lemma shifted_coeffs_apart m pc pd x :
  valid m pc -> valid m pd ->
  pc + TAPS <= pd \/ pd + TAPS <= pc ->
  cells (shifted m pd x) pc 4 = cells m pc 4.
Proof.
  intros Hc Hd Hapart.
  rewrite (cells_4 m pc) by exact Hc.
  rewrite cells_4 by (unfold valid in *; now rewrite shifted_length).
  destruct Hc as [Hc Hclen], Hd as [Hd Hdlen].
  rewrite !shifted_frame by (unfold TAPS in *; lia). reflexivity.
Qed.

(** C6: with [c] and [d] the arrays [coeffs] and [delay_line] point to,
    [fir_filter(x, c, d)] returns; afterwards [d[0] = x] and
    [d[i] = old d[i-1]] for [1 <= i <= 3]; the value returned is the
    [int] inner product of [d] and [c], as they are after the shift,
    shifted right by 16.  Where the two arrays do not overlap this is the
    inner product of [x, old d[0], old d[1], old d[2]] with the caller's
    coefficients. *)
Theorem fir_filter_correct fuel x pc pd m :
  (5 <= fuel)%nat -> valid m pc -> valid m pd ->
  exists r m',
    fir_filter fuel x pc pd m = Ok (r, m') /\
    m' @ pd = x /\
    (forall i, 1 <= i <= 3 -> m' @ (pd + i) = m @ (pd + (i - 1))) /\
    r = shr (inner_product (cells m' pd 4) (cells m' pc 4)) 16 /\
    (pc + TAPS <= pd \/ pd + TAPS <= pc ->
     r = shr (inner_product (x :: cells m pd 3) (cells m pc 4)) 16).
Proof.
  intros Hfuel Hc Hd.
  exists (shr (inner_product (cells (shifted m pd x) pd 4)
                             (cells (shifted m pd x) pc 4)) 16),
         (shifted m pd x).
  pose proof (shifted_delay_line m pd x Hd) as Hline.
  assert (Hd' : valid (shifted m pd x) pd)
    by (unfold valid in *; now rewrite shifted_length).
  rewrite (cells_4 _ pd Hd') in Hline.
  injection Hline as H0 H1 H2 H3.
  split; [now apply fir_filter_run |].
  split; [exact H0 |].
  split.
  - intros i Hi.
    assert (i = 1 \/ i = 2 \/ i = 3) as [-> | [-> | ->]] by lia.
    + rewrite H1. f_equal; lia.
    + rewrite H2. f_equal; lia.
    + rewrite H3. f_equal; lia.
  - split; [reflexivity |].
    intros Hapart.
    rewrite (shifted_coeffs_apart m pc pd x Hc Hd Hapart).
    rewrite (shifted_delay_line m pd x Hd).
    destruct Hd as [Hp Hlen]. unfold TAPS in Hlen.
    rewrite (cells_cons m pd), (cells_cons m (pd + 1)),
      (cells_cons m (pd + 1 + 1)) by lia.
    replace (pd + 1 + 1) with (pd + 2) by lia.
    unfold cells at 2. rewrite take_0. reflexivity.
Qed.

Lemma fir_filter_correct_witness :
  let m := [1; 2; 3; 4; 65536; 131072; -65536; 7] in
  exists r m',
    fir_filter 5 65536 0 4 m = Ok (r, m') /\
    m' @ 4 = 65536 /\
    (forall i, 1 <= i <= 3 -> m' @ (4 + i) = m @ (4 + (i - 1))) /\
    r = shr (inner_product (cells m' 4 4) (cells m' 0 4)) 16 /\
    r = shr (inner_product (65536 :: cells m 4 3) (cells m 0 4)) 16.
Proof.
  intros m.
  destruct (fir_filter_correct 5 65536 0 4 m)
    as (r & m' & Hrun & Hd0 & Hdi & Hr & Hapart).
  - lia.
  - unfold valid, TAPS. simpl. lia.
  - unfold valid, TAPS. simpl. lia.
  - exists r, m'. repeat split; try assumption.
    apply Hapart. left. unfold TAPS. lia.
Defined.

(** C10 as stated fails when the two pointers designate the same array:
    [fir_filter(9, buf, buf)] on [buf = {1,2,3,4}] leaves [{9,1,2,3}] in
    the coefficient array. *)
Lemma fir_filter_aliased_coeffs_change :
  let buf := [1; 2; 3; 4] in
  valid buf 0 /\
  fir_filter 5 9 0 0 buf = Ok (0, [9; 1; 2; 3]) /\
  cells [9; 1; 2; 3] 0 4 <> cells buf 0 4 /\
  ~ (forall fuel x pc pd m r m',
       valid m pc -> valid m pd ->
       fir_filter fuel x pc pd m = Ok (r, m') ->
       cells m' pc 4 = cells m pc 4).
Proof.
  assert (Hvalid : valid [1; 2; 3; 4] 0) by (unfold valid, TAPS; simpl; lia).
  assert (Hrun : fir_filter 5 9 0 0 [1; 2; 3; 4] = Ok (0, [9; 1; 2; 3]))
    by reflexivity.
  cbv zeta. split; [exact Hvalid |]. split; [exact Hrun |].
  split; [discriminate |].
  intros Hall.
  specialize (Hall 5%nat 9 0 0 [1; 2; 3; 4] 0 [9; 1; 2; 3] Hvalid Hvalid Hrun).
  discriminate Hall.
Qed.

(** C10, amended: when the coefficient array and the delay line do not
    overlap, the coefficient sequence after a call to [fir_filter] is equal
    to the one before it; in every call [fir_filter] returns, the memory
    keeps its size and every cell outside the four cells of the delay line
    keeps its value. *)
Theorem fir_filter_frame fuel x pc pd m :
  (5 <= fuel)%nat -> valid m pc -> valid m pd ->
  exists r m',
    fir_filter fuel x pc pd m = Ok (r, m') /\
    length m' = length m /\
    (forall a, 0 <= a -> ~ (pd <= a < pd + TAPS) -> m' @ a = m @ a) /\
    (pc + TAPS <= pd \/ pd + TAPS <= pc -> cells m' pc 4 = cells m pc 4).
Proof.
  intros Hfuel Hc Hd.
  exists (shr (inner_product (cells (shifted m pd x) pd 4)
                             (cells (shifted m pd x) pc 4)) 16),
         (shifted m pd x).
  split; [now apply fir_filter_run |].
  split; [apply shifted_length |].
  split.
  - intros a Ha Hout. apply shifted_frame; [apply Hd | exact Ha | exact Hout].
  - now apply shifted_coeffs_apart.
Qed.

Lemma fir_filter_frame_witness :
  let m := [1; 2; 3; 4; 65536; 131072; -65536; 7] in
  exists r m',
    fir_filter 5 65536 0 4 m = Ok (r, m') /\
    length m' = length m /\
    (forall a, 0 <= a -> ~ (4 <= a < 4 + TAPS) -> m' @ a = m @ a) /\
    cells m' 0 4 = cells m 0 4.
Proof.
  intros m.
  destruct (fir_filter_frame 5 65536 0 4 m)
    as (r & m' & Hrun & Hlen & Hframe & Hapart).
  - lia.
  - unfold valid, TAPS. simpl. lia.
  - unfold valid, TAPS. simpl. lia.
  - exists r, m'. repeat split; try assumption.
    apply Hapart. left. unfold TAPS. lia.
Defined.

End Fir.

(** ** The remaining fixtures *)

(** The plain adders wrap: [add_overflow(INT_MAX, 1)] is [INT_MIN]. *)
Lemma add_overflow_wraps :
  TestOverflow.add_overflow INT_MAX 1 = INT_MIN /\
  Adder.add INT_MAX 1 = INT_MIN /\
  TestOverflow.main = Ok 0.
Proof. repeat split. Qed.

Lemma add_no_overflow a b :
  in_int (a + b) -> Adder.add a b = a + b /\ TestOverflow.add_overflow a b = a + b.
Proof. intros H. split; apply add_exact, H. Qed.

(** test_bounds.c: the loop with [i <= 5] leaves the array, the loop with
    [i < 5] does not. *)
Lemma test_bounds_runs :
  TestBounds.array_access_bug 7 = Err (OutOfBounds 5) /\
  TestBounds.main 7 = Err (OutOfBounds 5) /\
  TestBounds.safe_array_access 7 = Ok tt.
Proof. repeat split. Qed.

(** * Further properties of the fixtures *)

(** ** Wrap-around arithmetic *)

Lemma wrap_unfold z : wrap z = (z + 2147483648) mod 4294967296 - 2147483648.
Proof. reflexivity. Qed.

Lemma wrap_add_l a b : wrap (wrap a + b) = wrap (a + b).
Proof.
  rewrite !wrap_unfold.
  replace ((a + 2147483648) mod 4294967296 - 2147483648 + b + 2147483648)
    with ((a + 2147483648) mod 4294967296 + b) by lia.
  rewrite Zplus_mod_idemp_l. f_equal. f_equal. lia.
Qed.

Lemma wrap_add_r a b : wrap (a + wrap b) = wrap (a + b).
Proof. rewrite (Z.add_comm a (wrap b)), wrap_add_l. f_equal. lia. Qed.

Lemma wrap_above z :
  INT_MAX < z <= INT_MAX + 4294967296 -> wrap z = z - 4294967296.
Proof.
  unfold INT_MAX. intros Hz. rewrite wrap_unfold.
  replace (z + 2147483648) with (z - 2147483648 + 1 * 4294967296) by lia.
  rewrite Z_mod_plus_full, Z.mod_small; lia.
Qed.

Lemma wrap_below z :
  INT_MIN - 4294967296 <= z < INT_MIN -> wrap z = z + 4294967296.
Proof.
  unfold INT_MIN. intros Hz. rewrite wrap_unfold.
  replace (z + 2147483648) with (z + 6442450944 + (-1) * 4294967296) by lia.
  rewrite Z_mod_plus_full, Z.mod_small; lia.
Qed.

(** ** adder.c and test_overflow.c: the plain adders *)

(** X1: on ints the plain adders return an int; it is the exact sum when
    that is representable, the exact sum minus [2^32] when the sum is above
    [INT_MAX] and the exact sum plus [2^32] when it is below [INT_MIN]. *)
Theorem plain_add_wraps a b :
  in_int a -> in_int b ->
  TestOverflow.add_overflow a b = Adder.add a b /\
  in_int (Adder.add a b) /\
  (in_int (a + b) -> Adder.add a b = a + b) /\
  (INT_MAX < a + b -> Adder.add a b = a + b - 4294967296) /\
  (a + b < INT_MIN -> Adder.add a b = a + b + 4294967296).
Proof.
  intros Ha Hb. unfold TestOverflow.add_overflow, Adder.add, CInt.add.
  split; [reflexivity |]. split; [apply wrap_in_int |].
  split; [apply wrap_small |]. split; intros H.
  - apply wrap_above. int_bounds.
  - apply wrap_below. int_bounds.
Qed.

Lemma plain_add_wraps_witness :
  Adder.add INT_MAX INT_MAX = INT_MAX + INT_MAX - 4294967296 /\
  Adder.add INT_MIN (-1) = INT_MIN + -1 + 4294967296 /\
  Adder.add 2 3 = 2 + 3.
Proof.
  split; [| split].
  - apply (plain_add_wraps INT_MAX INT_MAX); unfold in_int, INT_MIN, INT_MAX; lia.
  - apply (plain_add_wraps INT_MIN (-1)); unfold in_int, INT_MIN, INT_MAX; lia.
  - apply (plain_add_wraps 2 3); unfold in_int, INT_MIN, INT_MAX; lia.
Defined.

(** X2: the plain adder is commutative and associative, overflow in an
    intermediate sum included. *)
Theorem plain_add_comm_assoc a b c :
  Adder.add a b = Adder.add b a /\
  Adder.add (Adder.add a b) c = Adder.add a (Adder.add b c).
Proof.
  unfold Adder.add, CInt.add. split.
  - f_equal. lia.
  - rewrite wrap_add_l, wrap_add_r. f_equal. lia.
Qed.

(** ** adder.c: where the saturating adder is right *)

(** X3: on ints [add_sat] returns one of the two bounds, and it agrees
    with the clamp of the exact sum exactly when that sum is above
    [INT_MAX] or at most [INT_MIN]. *)
Theorem add_sat_agrees_with_clamp_iff a b :
  in_int a -> in_int b ->
  (Adder.add_sat a b = INT_MAX \/ Adder.add_sat a b = INT_MIN) /\
  (Adder.add_sat a b = clamp (a + b) INT_MIN INT_MAX <->
   INT_MAX < a + b \/ a + b <= INT_MIN).
Proof.
  intros Ha Hb. rewrite (add_sat_computes a b Ha Hb). unfold clamp.
  destruct (a + b >? INT_MAX) eqn:Hhi.
  - apply Z.gtb_lt in Hhi.
    replace (a + b <? INT_MIN) with false by (symmetry; apply Z.ltb_ge; int_bounds).
    split; [now left |]. split; [now left | reflexivity].
  - rewrite Z.gtb_ltb in Hhi. apply Z.ltb_ge in Hhi.
    split; [now right |].
    destruct (a + b <? INT_MIN) eqn:Hlo.
    + apply Z.ltb_lt in Hlo. split; [right; lia | reflexivity].
    + apply Z.ltb_ge in Hlo. split; [intros H; right; lia |].
      intros [H | H]; lia.
Qed.

Lemma add_sat_agrees_with_clamp_iff_witness :
  Adder.add_sat INT_MAX 1 = clamp (INT_MAX + 1) INT_MIN INT_MAX.
Proof.
  apply (add_sat_agrees_with_clamp_iff INT_MAX 1);
    [unfold in_int, INT_MIN, INT_MAX; lia .. | left; unfold INT_MAX; lia].
Defined.

(** ** test_overflow.c: safe_add against add_overflow *)

(** X4: on ints [safe_add] and [add_overflow] return the same value
    exactly when the exact sum is representable. *)
Theorem safe_add_eq_add_overflow_iff a b :
  in_int a -> in_int b ->
  (TestOverflow.safe_add a b = TestOverflow.add_overflow a b <-> in_int (a + b)).
Proof.
  intros Ha Hb. rewrite (safe_add_clamp a b Ha Hb).
  unfold TestOverflow.add_overflow, CInt.add, clamp.
  destruct (a + b <? INT_MIN) eqn:E1.
  - apply Z.ltb_lt in E1. rewrite wrap_below by int_bounds. split; int_bounds.
  - apply Z.ltb_ge in E1. destruct (a + b >? INT_MAX) eqn:E2.
    + apply Z.gtb_lt in E2. rewrite wrap_above by int_bounds. split; int_bounds.
    + rewrite Z.gtb_ltb in E2. apply Z.ltb_ge in E2.
      assert (Hin : in_int (a + b)) by (unfold in_int; lia).
      rewrite (wrap_small _ Hin). split; [intros _; exact Hin | reflexivity].
Qed.

Lemma safe_add_eq_add_overflow_iff_witness :
  TestOverflow.safe_add 2 3 = TestOverflow.add_overflow 2 3.
Proof.
  apply (safe_add_eq_add_overflow_iff 2 3); unfold in_int, INT_MIN, INT_MAX; lia.
Defined.

(** X5: on ints [safe_add] returns an int, does not depend on the order of
    its arguments, and is monotone in its first argument. *)
Theorem safe_add_comm_monotone a a' b :
  in_int a -> in_int a' -> in_int b ->
  in_int (TestOverflow.safe_add a b) /\
  TestOverflow.safe_add a b = TestOverflow.safe_add b a /\
  (a <= a' -> TestOverflow.safe_add a b <= TestOverflow.safe_add a' b).
Proof.
  intros Ha Ha' Hb.
  rewrite (safe_add_clamp a b Ha Hb), (safe_add_clamp b a Hb Ha),
    (safe_add_clamp a' b Ha' Hb).
  unfold clamp. rewrite (Z.add_comm b a).
  split; [| split; [reflexivity |]].
  - destruct (a + b <? INT_MIN) eqn:E1; [int_bounds |].
    apply Z.ltb_ge in E1.
    destruct (a + b >? INT_MAX) eqn:E2; [int_bounds |].
    rewrite Z.gtb_ltb in E2. apply Z.ltb_ge in E2. unfold in_int. lia.
  - intros Hle.
    destruct (a + b <? INT_MIN) eqn:E1, (a' + b <? INT_MIN) eqn:E1';
      destruct (a + b >? INT_MAX) eqn:E2, (a' + b >? INT_MAX) eqn:E2';
      rewrite ?Z.gtb_ltb in *;
      repeat match goal with
             | H : (_ <? _) = true |- _ => apply Z.ltb_lt in H
             | H : (_ <? _) = false |- _ => apply Z.ltb_ge in H
             end; int_bounds.
Qed.

Lemma safe_add_comm_monotone_witness :
  TestOverflow.safe_add 1 5 <= TestOverflow.safe_add INT_MAX 5 /\
  TestOverflow.safe_add (-7) INT_MIN = TestOverflow.safe_add INT_MIN (-7).
Proof.
  split.
  - apply (safe_add_comm_monotone 1 INT_MAX 5);
      unfold in_int, INT_MIN, INT_MAX; lia.
  - apply (safe_add_comm_monotone (-7) (-7) INT_MIN);
      unfold in_int, INT_MIN, INT_MAX; lia.
Defined.

(** ** test_cbmc.c: abs_value at and around INT_MIN *)

(** X6: on ints [abs_value] is the mathematical absolute value except at
    [INT_MIN], which it returns unchanged; its result is negative for that
    argument only, and it is never below [INT_MIN] or above [INT_MAX]. *)
Theorem abs_value_edge x :
  in_int x ->
  (x <> INT_MIN -> TestCbmc.abs_value x = Z.abs x) /\
  (x = INT_MIN -> TestCbmc.abs_value x = INT_MIN) /\
  (TestCbmc.abs_value x < 0 <-> x = INT_MIN) /\
  in_int (TestCbmc.abs_value x).
Proof.
  intros Hx. unfold TestCbmc.abs_value, or_else, if_return.
  destruct (Z.eq_dec x INT_MIN) as [-> | Hne].
  - repeat split; try reflexivity; try (intros; int_bounds);
      try (vm_compute; congruence).
  - destruct (x <? 0) eqn:Hneg.
    + apply Z.ltb_lt in Hneg. rewrite neg_exact by int_bounds.
      repeat split; try (intros; int_bounds); lia.
    + apply Z.ltb_ge in Hneg.
      repeat split; try (intros; int_bounds); lia.
Qed.

Lemma abs_value_edge_witness :
  TestCbmc.abs_value (-7) = Z.abs (-7) /\ TestCbmc.abs_value INT_MIN = INT_MIN.
Proof.
  split.
  - apply (abs_value_edge (-7)); unfold in_int, INT_MIN, INT_MAX; lia.
  - apply (abs_value_edge INT_MIN); [unfold in_int, INT_MIN, INT_MAX; lia | reflexivity].
Defined.

(** X7: on ints [abs_value] is even with respect to the wrapping negation
    and idempotent, [INT_MIN] included; the three implementations
    [abs_value], [abs_v1] and [abs_v2] are the same function. *)
Theorem abs_value_even_idempotent x :
  in_int x ->
  TestCbmc.abs_value (neg x) = TestCbmc.abs_value x /\
  TestCbmc.abs_value (TestCbmc.abs_value x) = TestCbmc.abs_value x /\
  TestCbmc.abs_value x = EquivalenceHarness.abs_v1 x /\
  TestCbmc.abs_value x = EquivalenceHarness.abs_v2 x.
Proof.
  intros Hx.
  assert (Hsame : TestCbmc.abs_value x = EquivalenceHarness.abs_v2 x).
  { unfold TestCbmc.abs_value, EquivalenceHarness.abs_v2, or_else, if_return.
    destruct (x <? 0); reflexivity. }
  split; [| split; [| split; [reflexivity | exact Hsame]]].
  - destruct (Z.eq_dec x INT_MIN) as [-> | Hne]; [reflexivity |].
    rewrite neg_exact by int_bounds.
    unfold TestCbmc.abs_value, or_else, if_return.
    destruct (x <? 0) eqn:E1, (- x <? 0) eqn:E2;
      repeat match goal with
             | H : (_ <? _) = true |- _ => apply Z.ltb_lt in H
             | H : (_ <? _) = false |- _ => apply Z.ltb_ge in H
             end; rewrite ?neg_exact by int_bounds; lia.
  - destruct (Z.eq_dec x INT_MIN) as [-> | Hne]; [reflexivity |].
    unfold TestCbmc.abs_value, or_else, if_return.
    destruct (x <? 0) eqn:E1.
    + apply Z.ltb_lt in E1. rewrite neg_exact by int_bounds.
      replace (- x <? 0) with false by (symmetry; apply Z.ltb_ge; lia).
      reflexivity.
    + now rewrite E1.
Qed.

Lemma abs_value_even_idempotent_witness :
  TestCbmc.abs_value (neg INT_MIN) = TestCbmc.abs_value INT_MIN /\
  TestCbmc.abs_value (TestCbmc.abs_value (-3)) = TestCbmc.abs_value (-3).
Proof.
  split.
  - apply (abs_value_even_idempotent INT_MIN); unfold in_int, INT_MIN, INT_MAX; lia.
  - apply (abs_value_even_idempotent (-3)); unfold in_int, INT_MIN, INT_MAX; lia.
Defined.

(** ** test_assertion.c: algebra of max *)

(** X8: [max] is the greatest of its two arguments ([Z.max]); it is
    commutative, associative and idempotent. *)
Theorem max_lattice x y z :
  TestAssertion.max x y = Z.max x y /\
  TestAssertion.max x y = TestAssertion.max y x /\
  TestAssertion.max (TestAssertion.max x y) z
    = TestAssertion.max x (TestAssertion.max y z) /\
  TestAssertion.max x x = x.
Proof.
  assert (Hmax : forall a b, TestAssertion.max a b = Z.max a b).
  { intros a b. unfold TestAssertion.max, or_else, if_return.
    destruct (a >? b) eqn:E.
    - apply Z.gtb_lt in E. lia.
    - rewrite Z.gtb_ltb in E. apply Z.ltb_ge in E. lia. }
  rewrite !Hmax. repeat split; lia.
Qed.

(** ** array_bounds.c: sum_array for every size *)

Lemma fold_add_wrap l : forall a,
  fold_left CInt.add l (wrap a) = wrap (a + sum_Z l).
Proof.
  induction l as [| x l IH]; intros a; simpl.
  - f_equal. lia.
  - unfold CInt.add at 2. rewrite wrap_add_l, IH. f_equal. lia.
Qed.

Lemma sum_loop_collects (arr : list Z) size (k : nat) : forall fuel i acc,
  0 <= i -> i + Z.of_nat k = size + 1 ->
  size < Z.of_nat (length arr) -> size < INT_MAX ->
  (k < fuel)%nat ->
  c_for fuel (fun i => i <=? size) incr
    (fun i sum => v <- load arr i ;; Ok (sum +' v)) i acc
  = Ok (fold_left CInt.add (take k (drop (Z.to_nat i) arr)) acc).
Proof.
  induction k as [| k IH]; intros fuel i acc Hi Hk Hlen Hmax Hfuel;
    (destruct fuel as [| fuel]; [lia |]).
  - rewrite c_for_exit by (apply Z.leb_gt; lia). reflexivity.
  - rewrite c_for_step by (apply Z.leb_le; lia). cbv beta.
    rewrite load_ok by lia. cbn [bind].
    rewrite incr_exact by int_bounds.
    rewrite IH by lia.
    destruct (nth_lookup_or_length arr (Z.to_nat i) 0) as [Hl | Hl]; [| lia].
    rewrite (drop_S _ _ _ Hl). cbn [take fold_left].
    replace (Z.to_nat (i + 1)) with (S (Z.to_nat i)) by lia. reflexivity.
Qed.

(** X9: with a negative [size], [sum_array] returns 0 and reads nothing;
    with [0 <= size < length], it returns, in [int] arithmetic, the sum of
    the [size + 1] elements [arr[0..size]]: one element more than [size]. *)
Theorem sum_array_counts_one_more (arr : list Z) size fuel :
  (size < 0 -> (1 <= fuel)%nat -> ArrayBounds.sum_array fuel arr size = Ok 0) /\
  (0 <= size < Z.of_nat (length arr) -> size < INT_MAX ->
   (Z.to_nat size + 1 < fuel)%nat ->
   ArrayBounds.sum_array fuel arr size
   = Ok (wrap (sum_Z (take (Z.to_nat size + 1) arr)))).
Proof.
  unfold ArrayBounds.sum_array. split.
  - intros Hneg Hfuel. destruct fuel as [| fuel]; [lia |].
    apply c_for_exit. apply Z.leb_gt. lia.
  - intros Hsize Hmax Hfuel.
    rewrite (sum_loop_collects arr size (Z.to_nat size + 1)) by lia.
    change (Z.to_nat 0) with 0%nat. rewrite drop_0.
    change 0 with (wrap 0) at 1. rewrite fold_add_wrap. reflexivity.
Qed.

Lemma sum_array_counts_one_more_witness :
  ArrayBounds.sum_array 1 [1; 2; 3] (-4) = Ok 0 /\
  ArrayBounds.sum_array 5 [1; 2; 3; 4; 5] 3
  = Ok (wrap (sum_Z (take (Z.to_nat 3 + 1) [1; 2; 3; 4; 5]))).
Proof.
  split.
  - apply (sum_array_counts_one_more [1; 2; 3] (-4) 1); lia.
  - apply (sum_array_counts_one_more [1; 2; 3; 4; 5] 3 5);
      simpl; unfold INT_MAX; lia.
Defined.

Lemma sum_loop_leaves (arr : list Z) size (k : nat) : forall fuel i acc,
  0 <= i -> i + Z.of_nat k = Z.of_nat (length arr) ->
  Z.of_nat (length arr) <= size <= INT_MAX ->
  (k < fuel)%nat ->
  c_for fuel (fun i => i <=? size) incr
    (fun i sum => v <- load arr i ;; Ok (sum +' v)) i acc
  = Err (OutOfBounds (Z.of_nat (length arr))).
Proof.
  induction k as [| k IH]; intros fuel i acc Hi Hk Hsize Hfuel;
    (destruct fuel as [| fuel]; [lia |]);
    (rewrite c_for_step by (apply Z.leb_le; lia)); cbv beta.
  - replace i with (Z.of_nat (length arr)) by lia.
    rewrite load_past_end. reflexivity.
  - rewrite load_ok by lia. cbn [bind].
    rewrite incr_exact by int_bounds.
    apply IH; lia.
Qed.

(** X10: whenever [size] is at least the length of the array,
    [sum_array] reads the element one past the end of the array. *)
Theorem sum_array_size_too_large (arr : list Z) size fuel :
  Z.of_nat (length arr) <= size <= INT_MAX ->
  (length arr < fuel)%nat ->
  ArrayBounds.sum_array fuel arr size = Err (OutOfBounds (Z.of_nat (length arr))).
Proof.
  intros Hsize Hfuel. unfold ArrayBounds.sum_array.
  apply (sum_loop_leaves arr size (length arr)); lia.
Qed.

Lemma sum_array_size_too_large_witness :
  ArrayBounds.sum_array 3 [7; 8] 40 = Err (OutOfBounds (Z.of_nat (length [7; 8]))).
Proof.
  apply (sum_array_size_too_large [7; 8] 40 3); simpl; unfold INT_MAX; lia.
Defined.

(** ** bubble_sort_v1.c: prefixes, wrong lengths, canonical results *)

Section BubbleSortMore.
Import BubbleSortV1.

Local Abbreviation inner_body :=
  (fun j arr =>
     x <- load arr j ;;
     y <- load arr (j +' 1) ;;
     if x >? y
     then
       temp <- load arr j ;;
       v <- load arr (j +' 1) ;;
       arr <- store arr j v ;;
       store arr (j +' 1) temp
     else Ok arr).

Lemma bubble_pass_app k : forall pre x rest w,
  (k <= length rest)%nat ->
  bubble_pass k pre x (rest ++ w) = bubble_pass k pre x rest ++ w.
Proof.
  induction k as [| k IH]; intros pre x rest w Hk.
  - destruct rest; simpl; now rewrite <- app_assoc.
  - destruct rest as [| y rest]; [simpl in Hk; lia |]. simpl in Hk.
    cbn [app bubble_pass]. destruct (x >? y); apply IH; lia.
Qed.

Lemma bubble_passes_app k : forall a w,
  (k < length a)%nat ->
  bubble_passes k (a ++ w) = bubble_passes k a ++ w.
Proof.
  induction k as [| k IH]; intros a w Hk.
  - destruct a; [simpl in Hk; lia | reflexivity].
  - destruct a as [| x rest]; [simpl in Hk; lia |]. simpl in Hk.
    cbn [app bubble_passes].
    rewrite bubble_pass_app by lia.
    apply IH. rewrite bubble_pass_length. simpl. lia.
Qed.

Lemma bubble_passes_sorted_perm s :
  StronglySorted Z.le (bubble_passes (length s - 1) s) /\
  Permutation s (bubble_passes (length s - 1) s).
Proof.
  destruct s as [| x rest]; [split; constructor |].
  destruct (bubble_passes_sorts (length rest) (x :: rest) []) as [Hs Hp].
  - reflexivity.
  - constructor.
  - apply Forall_forall. intros; constructor.
  - rewrite app_nil_r in Hs, Hp. simpl. rewrite Nat.sub_0_r. now split.
Qed.

(** The outer loop when [n] is at most the length of the array. *)
Lemma outer_loop_passes_prefix inner_fuel n k : forall fuel arr i,
  n <= Z.of_nat (length arr) -> Z.of_nat (length arr) <= INT_MAX ->
  0 <= i -> i + Z.of_nat k + 1 = n ->
  (k < fuel)%nat -> (Z.to_nat n < inner_fuel)%nat ->
  c_for fuel (fun i => i <? n -' 1) incr
    (fun i arr => c_for inner_fuel (fun j => j <? n -' i -' 1) incr inner_body 0 arr)
    i arr
  = Ok (bubble_passes k arr).
Proof.
  induction k as [| k IH]; intros fuel arr i Hn Hfit Hi0 Hi Hfuel Hinner;
    (destruct fuel as [| fuel]; [lia |]).
  - rewrite c_for_exit by (rewrite sub_exact by int_bounds; apply Z.ltb_ge; lia).
    destruct arr; reflexivity.
  - destruct arr as [| x rest]; [simpl in Hn; lia |]. simpl in Hn, Hfit.
    rewrite c_for_step by (rewrite sub_exact by int_bounds; apply Z.ltb_lt; lia).
    cbv beta.
    rewrite (sub_exact n i), (sub_exact (n - i) 1) by int_bounds.
    change (x :: rest) with ([] ++ x :: rest) at 1.
    change 0 with (Z.of_nat (length (@nil Z))) at 1.
    rewrite (inner_loop_pass (S k)); [| simpl; lia | lia | lia | simpl; lia].
    cbn [bind bubble_passes].
    rewrite incr_exact by int_bounds.
    apply IH; rewrite ?bubble_pass_length; simpl; lia.
Qed.

(** X11: called with [n] at most the length of the array, [bubble_sort]
    sorts the first [n] elements among themselves and leaves the others
    where they are; with [n <= 1] it leaves the whole array as it is. *)
Theorem bubble_sort_prefix fuel (s : list Z) n :
  Z.of_nat (length s) <= INT_MAX ->
  (INT_MIN < n <= 1 -> (1 <= fuel)%nat -> bubble_sort fuel s n = Ok s) /\
  (0 <= n <= Z.of_nat (length s) -> (Z.to_nat n < fuel)%nat ->
   exists p,
     bubble_sort fuel s n = Ok (p ++ drop (Z.to_nat n) s) /\
     Sorted Z.le p /\ Permutation (take (Z.to_nat n) s) p).
Proof.
  intros Hfit. unfold bubble_sort. split.
  - intros Hn Hfuel. destruct fuel as [| fuel]; [lia |].
    apply c_for_exit. rewrite sub_exact by int_bounds. apply Z.ltb_ge. lia.
  - intros Hn Hfuel.
    destruct (Z.eq_dec n 0) as [-> | Hne].
    { exists []. destruct fuel as [| fuel]; [simpl in Hfuel; lia |].
      rewrite c_for_exit by reflexivity.
      repeat split; constructor. }
    rewrite (outer_loop_passes_prefix fuel n (Z.to_nat n - 1)) by lia.
    exists (bubble_passes (Z.to_nat n - 1) (take (Z.to_nat n) s)).
    destruct (bubble_passes_sorted_perm (take (Z.to_nat n) s)) as [Hs Hp].
    rewrite length_take_le in Hs, Hp by lia.
    split; [| split; [now apply StronglySorted_Sorted | exact Hp]].
    f_equal. rewrite <- (take_drop (Z.to_nat n) s) at 1.
    apply bubble_passes_app. rewrite length_take_le by lia. lia.
Qed.

Lemma bubble_sort_prefix_witness :
  bubble_sort 1 [3; 1; 2] (-5) = Ok [3; 1; 2] /\
  exists p,
    bubble_sort 3 [3; 1; 2; 0] 2 = Ok (p ++ drop (Z.to_nat 2) [3; 1; 2; 0]) /\
    Sorted Z.le p /\ Permutation (take (Z.to_nat 2) [3; 1; 2; 0]) p.
Proof.
  split.
  - apply (bubble_sort_prefix 1 [3; 1; 2] (-5)); simpl; unfold INT_MIN, INT_MAX; lia.
  - apply (bubble_sort_prefix 3 [3; 1; 2; 0] 2); simpl; unfold INT_MAX; lia.
Defined.

(** The first [k] steps of an inner loop that goes on afterwards. *)
Lemma inner_loop_steps k : forall fuel pre x rest hi,
  Z.of_nat (length (pre ++ x :: rest)) <= INT_MAX ->
  (k <= length rest)%nat ->
  Z.of_nat (length pre) + Z.of_nat k <= hi ->
  c_for (k + fuel) (fun j => j <? hi) incr inner_body
    (Z.of_nat (length pre)) (pre ++ x :: rest)
  = c_for fuel (fun j => j <? hi) incr inner_body
      (Z.of_nat (length pre) + Z.of_nat k) (bubble_pass k pre x rest).
Proof.
  induction k as [| k IH]; intros fuel pre x rest hi Hfit Hk Hhi.
  - rewrite Z.add_0_r. destruct rest; reflexivity.
  - destruct rest as [| y rest]; [simpl in Hk; lia |]. simpl in Hk.
    cbn [Nat.add].
    rewrite c_for_step by (apply Z.ltb_lt; lia).
    rewrite inner_body_step by exact Hfit. cbn [bind bubble_pass].
    assert (Hlen : Z.of_nat (length pre) + 1 <= INT_MAX).
    { rewrite length_app in Hfit. simpl in Hfit. lia. }
    rewrite incr_exact by int_bounds.
    replace (Z.of_nat (length pre) + Z.of_nat (S k))
      with (Z.of_nat (length pre) + 1 + Z.of_nat k) by lia.
    destruct (x >? y).
    + replace (Z.of_nat (length pre) + 1) with (Z.of_nat (length (pre ++ [y])))
        by (rewrite length_app; simpl; lia).
      apply IH.
      * rewrite !length_app in *. simpl in *. lia.
      * lia.
      * rewrite length_app. simpl. lia.
    + replace (Z.of_nat (length pre) + 1) with (Z.of_nat (length (pre ++ [x])))
        by (rewrite length_app; simpl; lia).
      apply IH.
      * rewrite !length_app in *. simpl in *. lia.
      * lia.
      * rewrite length_app. simpl. lia.
Qed.

(** X12: called with [n >= 2] larger than the length of the array,
    [bubble_sort] subscripts the array one past its end during the first
    pass. *)
Theorem bubble_sort_length_too_large fuel (s : list Z) n :
  Z.of_nat (length s) < n <= INT_MAX -> 2 <= n ->
  (length s < fuel)%nat ->
  bubble_sort fuel s n = Err (OutOfBounds (Z.of_nat (length s))).
Proof.
  intros Hn Hn2 Hfuel. unfold bubble_sort.
  destruct fuel as [| fuel]; [lia |].
  rewrite c_for_step by (rewrite sub_exact by int_bounds; apply Z.ltb_lt; lia).
  cbv beta. rewrite (sub_exact n 0), (sub_exact (n - 0) 1) by int_bounds.
  destruct s as [| x rest].
  - rewrite c_for_step by (apply Z.ltb_lt; lia). reflexivity.
  - simpl in Hn, Hfuel.
    replace (S fuel) with (length rest + (S (fuel - length rest)))%nat by lia.
    change (x :: rest) with ([] ++ x :: rest) at 1.
    change 0 with (Z.of_nat (length (@nil Z))) at 2.
    rewrite (inner_loop_steps (length rest)); [| simpl; lia | lia | simpl; lia].
    destruct (bubble_pass_bubbles_max (length rest) [] x rest)
      as (mid & m & Heq & _ & _ & Hmid); [lia |].
    rewrite drop_all in Heq. cbn [app] in Heq. rewrite Heq.
    rewrite c_for_step by (apply Z.ltb_lt; simpl; lia).
    cbn [length]. rewrite <- Hmid.
    change (Z.of_nat 0 + Z.of_nat (length mid)) with (Z.of_nat (length mid)).
    rewrite load_middle. cbn [bind].
    rewrite add_exact by (rewrite Hmid; int_bounds).
    replace (Z.of_nat (length mid) + 1) with (Z.of_nat (length (mid ++ [m])))
      by (rewrite length_app; simpl; lia).
    rewrite load_past_end. cbn [bind].
    rewrite length_app. simpl. do 2 f_equal. lia.
Qed.

Lemma bubble_sort_length_too_large_witness :
  bubble_sort 3 [4; 2] 3 = Err (OutOfBounds (Z.of_nat (length [4; 2]))).
Proof.
  apply (bubble_sort_length_too_large 3 [4; 2] 3); simpl; unfold INT_MAX; lia.
Defined.

(** X13: the result of [bubble_sort] depends only on which elements the
    array holds, not on their order: two arrays that are permutations of
    each other are sorted into the same array; in particular an array that
    is already non-decreasing is returned unchanged. *)
Theorem bubble_sort_canonical fuel (s1 s2 : list Z) :
  Z.of_nat (length s1) <= INT_MAX -> (length s1 < fuel)%nat ->
  Permutation s1 s2 ->
  bubble_sort fuel s1 (Z.of_nat (length s1))
  = bubble_sort fuel s2 (Z.of_nat (length s2)) /\
  (Sorted Z.le s2 -> bubble_sort fuel s1 (Z.of_nat (length s1)) = Ok s2).
Proof.
  intros Hfit Hfuel Hperm.
  assert (Hlen : length s2 = length s1) by (symmetry; now apply Permutation_length).
  rewrite (bubble_sort_passes fuel s1) by assumption.
  rewrite (bubble_sort_passes fuel s2) by (rewrite Hlen; assumption).
  destruct (bubble_passes_sorted_perm s1) as [Hs1 Hp1].
  destruct (bubble_passes_sorted_perm s2) as [Hs2 Hp2].
  split; [| intros Hsorted]; f_equal.
  - apply (StronglySorted_unique Z.le); [assumption .. |].
    now rewrite <- Hp1, <- Hp2.
  - apply (StronglySorted_unique Z.le);
      [assumption | now apply Sorted_StronglySorted; [intros ???; lia |] |].
    now rewrite <- Hp1.
Qed.

Lemma bubble_sort_canonical_witness :
  bubble_sort 4 [3; 1; 2] (Z.of_nat (length [3; 1; 2])) = Ok [1; 2; 3].
Proof.
  apply (bubble_sort_canonical 4 [3; 1; 2] [1; 2; 3]).
  - simpl. unfold INT_MAX. lia.
  - simpl. lia.
  - apply perm_trans with [1; 3; 2]; [apply perm_swap | apply perm_skip, perm_swap].
  - repeat constructor; lia.
Defined.

End BubbleSortMore.

(** ** fir_filter.c: range of the result, exact arithmetic, successive calls *)

Section FirMore.
Import FirFilter.

Lemma inner_product_from d : forall c a,
  fold_left (fun acc dc => acc +' fst dc *' snd dc) (zip d c) (wrap a)
  = wrap (a + dot_Z d c).
Proof.
  induction d as [| x d IH]; intros c a.
  - simpl. f_equal. unfold dot_Z. simpl. lia.
  - destruct c as [| y c].
    + simpl. f_equal. unfold dot_Z. simpl. lia.
    + cbn [zip_with fold_left fst snd].
      unfold CInt.add at 2, CInt.mul at 2.
      rewrite wrap_add_r, wrap_add_l, IH. f_equal.
      unfold dot_Z, sum_Z. simpl. lia.
Qed.

(** The [int] inner product is the exact one, reduced once at the end. *)
Lemma inner_product_exact d c : inner_product d c = wrap (dot_Z d c).
Proof.
  unfold inner_product. change 0 with (wrap 0) at 1.
  rewrite inner_product_from. reflexivity.
Qed.

Lemma shr_16_range z : in_int z -> -32768 <= shr z 16 <= 32767.
Proof.
  unfold in_int, INT_MIN, INT_MAX, shr. intros Hz.
  rewrite Z.shiftr_div_pow2 by lia. change (2 ^ 16) with 65536.
  split.
  - apply Z.div_le_lower_bound; lia.
  - apply Z.lt_succ_r. apply Z.div_lt_upper_bound; lia.
Qed.

(** X14: whatever the samples and the coefficients, the value returned
    by [fir_filter] lies in [[-32768, 32767]]. *)
Theorem fir_filter_result_16_bits fuel x pc pd m :
  (5 <= fuel)%nat -> valid m pc -> valid m pd ->
  exists r m',
    fir_filter fuel x pc pd m = Ok (r, m') /\ -32768 <= r <= 32767.
Proof.
  intros Hfuel Hc Hd. eexists _, _.
  split; [now apply fir_filter_run |].
  apply shr_16_range. rewrite inner_product_exact. apply wrap_in_int.
Qed.

Lemma fir_filter_result_16_bits_witness :
  exists r m',
    fir_filter 5 INT_MAX 0 4 [INT_MAX; INT_MIN; 3; 4; 5; 6; 7; 8] = Ok (r, m') /\
    -32768 <= r <= 32767.
Proof.
  apply (fir_filter_result_16_bits 5 INT_MAX 0 4);
    [lia | unfold valid, TAPS; simpl; lia ..].
Defined.

(** X15: when the two arrays do not overlap, the value returned is the
    exact inner product of [x, old d[0], old d[1], old d[2]] with the
    coefficients, reduced to an [int] once and divided by 65536 rounding
    down; when that inner product is representable no reduction happens.
    The oldest sample, [old d[3]], plays no part. *)
Theorem fir_filter_exact fuel x pc pd m :
  (5 <= fuel)%nat -> valid m pc -> valid m pd ->
  pc + TAPS <= pd \/ pd + TAPS <= pc ->
  exists r m',
    fir_filter fuel x pc pd m = Ok (r, m') /\
    r = wrap (dot_Z (x :: cells m pd 3) (cells m pc 4)) / 65536 /\
    (in_int (dot_Z (x :: cells m pd 3) (cells m pc 4)) ->
     r = dot_Z (x :: cells m pd 3) (cells m pc 4) / 65536).
Proof.
  intros Hfuel Hc Hd Hapart. eexists _, _.
  split; [now apply fir_filter_run |].
  rewrite (shifted_coeffs_apart m pc pd x Hc Hd Hapart).
  rewrite (shifted_delay_line m pd x Hd).
  assert (Hcells : [x; nth (Z.to_nat pd) m 0; nth (Z.to_nat (pd + 1)) m 0;
                    nth (Z.to_nat (pd + 2)) m 0] = x :: cells m pd 3).
  { destruct Hd as [Hp Hlen]. unfold TAPS in Hlen.
    rewrite (cells_cons m pd), (cells_cons m (pd + 1)),
      (cells_cons m (pd + 1 + 1)) by lia.
    replace (pd + 1 + 1) with (pd + 2) by lia.
    unfold cells at 1. rewrite take_0. reflexivity. }
  rewrite Hcells, inner_product_exact.
  unfold shr. rewrite Z.shiftr_div_pow2 by lia. change (2 ^ 16) with 65536.
  split; [reflexivity |].
  intros Hin. now rewrite wrap_small.
Qed.

Lemma fir_filter_exact_witness :
  let m := [65536; 131072; 0; -65536; 1; 2; 3; 4] in
  exists r m',
    fir_filter 5 7 0 4 m = Ok (r, m') /\
    r = dot_Z (7 :: cells m 4 3) (cells m 0 4) / 65536.
Proof.
  intros m.
  destruct (fir_filter_exact 5 7 0 4 m) as (r & m' & Hrun & _ & Hr).
  - lia.
  - unfold valid, TAPS. simpl. lia.
  - unfold valid, TAPS. simpl. lia.
  - left. unfold TAPS. lia.
  - exists r, m'. split; [exact Hrun |].
    apply Hr. vm_compute. split; discriminate.
Defined.

Lemma shifted_valid m p pd x : valid m p -> valid (shifted m pd x) p.
Proof. unfold valid. now rewrite shifted_length. Qed.

Lemma shifted_cells_step m pd x a b c d :
  valid m pd -> cells m pd 4 = [a; b; c; d] ->
  cells (shifted m pd x) pd 4 = [x; a; b; c].
Proof.
  intros Hd Hcells. rewrite (cells_4 m pd Hd) in Hcells.
  injection Hcells as <- <- <- _. now apply shifted_delay_line.
Qed.

(** X16: after four successive calls on the same delay line, with inputs
    [x1], [x2], [x3], [x4], the delay line holds [x4, x3, x2, x1] whatever
    it held before; and when the coefficient array is apart from it, the
    fourth result is the scaled inner product of these four inputs with
    the coefficients. *)
Theorem fir_filter_four_calls fuel x1 x2 x3 x4 pc pd m :
  (5 <= fuel)%nat -> valid m pc -> valid m pd ->
  exists r4 m4,
    (s1 <- fir_filter fuel x1 pc pd m ;;
     s2 <- fir_filter fuel x2 pc pd (snd s1) ;;
     s3 <- fir_filter fuel x3 pc pd (snd s2) ;;
     fir_filter fuel x4 pc pd (snd s3)) = Ok (r4, m4) /\
    cells m4 pd 4 = [x4; x3; x2; x1] /\
    (pc + TAPS <= pd \/ pd + TAPS <= pc ->
     cells m4 pc 4 = cells m pc 4 /\
     r4 = shr (inner_product [x4; x3; x2; x1] (cells m pc 4)) 16).
Proof.
  intros Hfuel Hc Hd.
  set (m1 := shifted m pd x1). set (m2 := shifted m1 pd x2).
  set (m3 := shifted m2 pd x3). set (m4 := shifted m3 pd x4).
  assert (Hd1 : valid m1 pd) by now apply shifted_valid.
  assert (Hd2 : valid m2 pd) by now apply shifted_valid.
  assert (Hd3 : valid m3 pd) by now apply shifted_valid.
  assert (Hc1 : valid m1 pc) by now apply shifted_valid.
  assert (Hc2 : valid m2 pc) by now apply shifted_valid.
  assert (Hc3 : valid m3 pc) by now apply shifted_valid.
  assert (Hline : cells m4 pd 4 = [x4; x3; x2; x1]).
  { pose proof (cells_4 m pd Hd) as H0.
    pose proof (shifted_cells_step m pd x1 _ _ _ _ Hd H0) as H1.
    pose proof (shifted_cells_step m1 pd x2 _ _ _ _ Hd1 H1) as H2.
    pose proof (shifted_cells_step m2 pd x3 _ _ _ _ Hd2 H2) as H3.
    exact (shifted_cells_step m3 pd x4 _ _ _ _ Hd3 H3). }
  exists (shr (inner_product (cells m4 pd 4) (cells m4 pc 4)) 16), m4.
  split; [| split; [exact Hline |]].
  - rewrite (fir_filter_run fuel x1 pc pd m) by assumption. cbn [bind snd].
    rewrite (fir_filter_run fuel x2 pc pd) by assumption. cbn [bind snd].
    rewrite (fir_filter_run fuel x3 pc pd) by assumption. cbn [bind snd].
    now rewrite (fir_filter_run fuel x4 pc pd) by assumption.
  - intros Hapart.
    assert (Hcoef : cells m4 pc 4 = cells m pc 4).
    { unfold m4, m3, m2, m1.
      now rewrite !shifted_coeffs_apart by (try apply shifted_valid; assumption). }
    split; [exact Hcoef |]. now rewrite Hline, Hcoef.
Qed.

Lemma fir_filter_four_calls_witness :
  let m := [65536; 131072; 0; -65536; 1; 2; 3; 4] in
  exists r4 m4,
    (s1 <- fir_filter 5 10 0 4 m ;;
     s2 <- fir_filter 5 20 0 4 (snd s1) ;;
     s3 <- fir_filter 5 30 0 4 (snd s2) ;;
     fir_filter 5 40 0 4 (snd s3)) = Ok (r4, m4) /\
    cells m4 4 4 = [40; 30; 20; 10] /\
    cells m4 0 4 = cells m 0 4 /\
    r4 = shr (inner_product [40; 30; 20; 10] (cells m 0 4)) 16.
Proof.
  intros m.
  destruct (fir_filter_four_calls 5 10 20 30 40 0 4 m)
    as (r4 & m4 & Hrun & Hline & Hapart).
  - lia.
  - unfold valid, TAPS. simpl. lia.
  - unfold valid, TAPS. simpl. lia.
  - exists r4, m4. split; [exact Hrun |]. split; [exact Hline |].
    apply Hapart. left. unfold TAPS. lia.
Defined.

End FirMore.
